(** * Issue extraction pipeline of [extract.py]: a shallow embedding

    The development follows the pipeline of [AccurateWhatsAppAnalyzer]:
    text and the ticket pattern, the message intent classifier, the
    segmentation loop [group_into_issues] and the rate part of
    [calculate_kpis].  Each Python function keeps its name. *)

From Stdlib Require Import ZArith QArith Qround String Ascii Lia Lqa.
From stdpp Require Import base option list gmap sorting.

#[local] Open Scope Z_scope.

(** ** Text *)

(** A Python [str] is a sequence of Unicode code points. *)
Definition str : Type := list N.

(** ASCII literals of the source, as code points. *)
Definition u (s : string) : str :=
  (fun a : ascii => N_of_ascii a) <$> list_ascii_of_string s.
Arguments u s%_string.

Fixpoint startswith (p s : str) : bool :=
  match p, s with
  | [], _ => true
  | _ :: _, [] => false
  | a :: p', b :: s' => (a =? b)%N && startswith p' s'
  end.

(** [needle in hay] on strings: substring containment. *)
Fixpoint contains (needle hay : str) : bool :=
  startswith needle hay ||
  match hay with
  | [] => false
  | _ :: t => contains needle t
  end.

(** ** The ticket pattern

    [ticket_pattern] is the regular expression [\b\d{7}\b].  On [str]
    patterns [\d] is the class of Unicode decimal digits and [\w] the
    class of alphanumeric code points together with the underscore; the
    two Unicode tables belong to the interpreter and are taken as given. *)

Inductive atom := WordBoundary | Digit.

Definition ticket_pattern : list atom :=
  WordBoundary :: repeat Digit 7 ++ [WordBoundary].

Section Regex.

Variable isdecimal : N -> bool.
Variable isalnum : N -> bool.

Definition is_word (c : N) : bool := isalnum c || (c =? 95)%N.

Definition digit_at (s : str) (i : nat) : bool :=
  default false (isdecimal <$> s !! i).

(** Outside of the string there is no word character. *)
Definition word_at (s : str) (i : nat) : bool :=
  default false (is_word <$> s !! i).

Definition word_before (s : str) (i : nat) : bool :=
  match i with
  | O => false
  | S j => word_at s j
  end.

(** [\b] holds where exactly one side is a word character. *)
Definition at_boundary (s : str) (i : nat) : bool :=
  xorb (word_before s i) (word_at s i).

(** Match of a sequence of atoms at position [i]; the result is the end
    position.  The pattern has neither alternatives nor variable
    repetition, so there is nothing to backtrack over. *)
Fixpoint match_here (pat : list atom) (s : str) (i : nat) : option nat :=
  match pat with
  | [] => Some i
  | WordBoundary :: p =>
      if at_boundary s i then match_here p s i else None
  | Digit :: p =>
      if digit_at s i then match_here p s (S i) else None
  end.

(** The scan of [re.findall]: leftmost match from the current position,
    then on from its end (one further after an empty match). *)
Fixpoint search (fuel : nat) (pat : list atom) (s : str) (i : nat) : list str :=
  match fuel with
  | O => []
  | S f =>
      if decide (length s < i)%nat then []
      else match match_here pat s i with
           | Some j =>
               take (j - i) (drop i s)
                 :: search f pat s (if decide (j = i) then S i else j)
           | None => search f pat s (S i)
           end
  end.

Definition findall (pat : list atom) (s : str) : list str :=
  search (S (length s)) pat s 0.

(** [ticket_ids = re.findall(self.patterns['ticket_pattern'], message)] *)
Definition extract_ticket_ids (message : str) : list str :=
  findall ticket_pattern message.

(** *** Two readings of "a run of seven digits" *)

Definition seven_digits_at (s : str) (i : nat) : bool :=
  forallb (fun k => digit_at s (i + k)) (seq 0 7).

Definition digit_before (s : str) (i : nat) : bool :=
  match i with
  | O => false
  | S j => digit_at s j
  end.

(** Bounded by non-digit characters or the ends of the string. *)
Definition digit_bounded_at (s : str) (i : nat) : bool :=
  seven_digits_at s i && negb (digit_before s i) && negb (digit_at s (i + 7)).

(** Bounded by non-word characters or the ends of the string. *)
Definition word_bounded_at (s : str) (i : nat) : bool :=
  seven_digits_at s i && negb (word_before s i) && negb (word_at s (i + 7)).

Definition runs_where (p : str -> nat -> bool) (s : str) : list str :=
  (fun i => take 7 (drop i s)) <$> filter (fun i => p s i = true) (seq 0 (S (length s))).

Definition digit_bounded_runs : str -> list str := runs_where digit_bounded_at.
Definition word_bounded_runs : str -> list str := runs_where word_bounded_at.

End Regex.

(** The two classes on ASCII text: [0-9] and [A-Za-z0-9]. *)
Definition ascii_isdecimal (c : N) : bool := ((48 <=? c) && (c <=? 57))%N.
Definition ascii_isalnum (c : N) : bool :=
  (ascii_isdecimal c || ((65 <=? c) && (c <=? 90)) || ((97 <=? c) && (c <=? 122)))%N.

(** ** Data model *)

Inductive SenderType := customer | support | unknown.
Inductive MessageType :=
  | issue_report | follow_up | general
  | resolution | acknowledgment | request_info | response
  | other.
Inductive Language := arabic | english | mixed.
Inductive Status := open | pending | resolved | no_response.
Inductive Category :=
  | zabbix_monitoring | port_down | temperature | outage
  | configuration | alarm | other_category.

#[global] Instance SenderType_eq_dec : EqDecision SenderType.
Proof. solve_decision. Defined.
#[global] Instance MessageType_eq_dec : EqDecision MessageType.
Proof. solve_decision. Defined.
#[global] Instance Status_eq_dec : EqDecision Status.
Proof. solve_decision. Defined.

(** [datetime] values are counted in microseconds from a fixed origin and
    a [timedelta] is a signed number of microseconds, so that subtraction
    of two timestamps is subtraction in [Z]. *)
Definition datetime : Type := Z.
Definition timedelta : Type := Z.

Definition hours (h : Z) : timedelta := h * 3600 * 1000000.

(** Truth value of an [Optional[timedelta]]: [None] and the zero duration
    are both false. *)
Definition truthy (d : option timedelta) : bool :=
  match d with
  | None => false
  | Some x => negb (x =? 0)
  end.

Record Message := {
  timestamp : datetime;
  sender : str;
  sender_type : SenderType;
  content : str;
  message_type : MessageType;
  language : Language;
  has_ticket_id : bool;
  msg_ticket_ids : list str
}.

Record Issue := {
  issue_id : nat;
  ticket_ids : list str;
  reporter : str;
  initial_message : str;
  start_time : datetime;
  end_time : option datetime;
  status : Status;
  messages : list Message;
  first_response_time : option timedelta;
  resolution_time : option timedelta;
  total_responses : nat;
  category : Category;
  issue_language : Language;
  support_participants : gset str
}.

(** ** Keyword tables of [_init_patterns] *)

Record KeywordDict := {
  kd_arabic : option (list str);
  kd_english : option (list str)
}.

#[local] Open Scope N_scope.

Definition acknowledgment_arabic : list str :=
  [ [1578; 1605; 1575; 1605]; [1576; 1575; 1588; 1585];
    [1575; 1608; 1603; 1610]; [1581; 1575; 1590; 1585];
    [1601; 1607; 1605; 1578]; [1608; 1589; 1604];
    [1607; 1587; 1607; 32; 1575; 1580; 1610; 1603];
    [1607; 1587; 1607; 32; 1606; 1580; 1610; 1603]; [1588; 1608; 1601; 1607];
    [1585; 1575; 1581; 32; 1575; 1588; 1608; 1601]; [1583; 1604; 1604];
    [1607; 1587; 1607; 32; 1575; 1588; 1608; 1601; 1607; 1575];
    [1607; 1587; 1607; 32; 1575; 1580; 1610; 1603; 1607] ].

Definition acknowledgment_english : list str :=
  [ u "ok"; u "okay"; u "got it"; u "noted"; u "checking"; u "will check";
    u "looking into" ].

Definition request_action_arabic : list str :=
  [ [1605; 1605; 1603; 1606]; [1576; 1604; 1575; 1586; 1581; 1605; 1607];
    [1575; 1584; 1575; 32; 1605; 1605; 1603; 1606]; [1578; 1602; 1583; 1585];
    [1604; 1608; 32; 1587; 1605; 1581; 1578]; [1578; 1580; 1610; 1603];
    [1578; 1588; 1608; 1601]; [1578; 1593; 1583; 1604];
    [1578; 1605; 1587; 1581; 1607; 1575]; [1578; 1604; 1594; 1608; 1607; 1575] ].

Definition request_action_english : list str :=
  [ u "can you"; u "could you"; u "please"; u "would you"; u "kindly" ].

Definition follow_up_arabic : list str :=
  [ [1588; 1604; 1608; 1606; 1603]; [1608; 1610; 1606; 32; 1608; 1589; 1604];
    [1588; 1606; 1608; 32; 1589; 1575; 1585]; [1603; 1605; 1604; 1606];
    [1604; 1587; 1575]; [1576; 1593; 1583]; [1588; 1608; 1601; 1578];
    [1575; 1606; 1578; 32; 1584; 1607; 1576]; [1607; 1587; 1607] ].

Definition follow_up_english : list str :=
  [ u "any update"; u "status"; u "what about"; u "still"; u "yet" ].

Definition patterns_acknowledgment : KeywordDict :=
  {| kd_arabic := Some acknowledgment_arabic;
     kd_english := Some acknowledgment_english |}.
Definition patterns_request_action : KeywordDict :=
  {| kd_arabic := Some request_action_arabic;
     kd_english := Some request_action_english |}.
Definition patterns_follow_up : KeywordDict :=
  {| kd_arabic := Some follow_up_arabic;
     kd_english := Some follow_up_english |}.

(** [any(k in text for k in keywords)] *)
Definition any_in (keywords : list str) (text : str) : bool :=
  existsb (fun k => contains k text) keywords.

(** [_contains_keywords]: the languages are visited in the order arabic,
    english; a language missing from the dictionary is skipped. *)
Definition _contains_keywords (text : str) (keyword_dict : KeywordDict) : bool :=
  default false (flip any_in text <$> kd_arabic keyword_dict) ||
  default false (flip any_in text <$> kd_english keyword_dict).

(** ** Message intent classifier and issue categories *)

Definition issue_indicators : list str :=
  [ [1591; 1601; 1578]; [1591; 1575; 1601; 1610]; [1602; 1591; 1593];
    [1605; 1588; 1603; 1604; 1577]; [1576; 1608; 1585; 1578]; u "down";
    u "error"; [1605; 1575; 1580; 1575; 1576; 1607];
    [1605; 1580; 1575; 1576; 1607];
    [1605; 1575; 1580; 1575; 1576; 1607; 1575];
    [1605; 1580; 1575; 1576; 1607; 1575]; [1591; 1575; 1601; 1610; 1607];
    [1576; 1608; 1585; 1578; 1575; 1578; 32; 1591; 1601; 1578];
    [1576; 1608; 1585; 1578; 1575; 1578; 32; 1591; 1575; 1601; 1610];
    [1602; 1591; 1608; 1593; 1575; 1578]; [1604; 1591; 1588] ].

Definition resolution_indicators : list str :=
  [ [1578; 1605; 1575; 1605]; u "done"; u "recheck"; u "ok"; u "solved";
    u "fixed"; [1593; 1575; 1588; 1578; 32; 1575; 1610; 1583; 1603];
    [1608; 1575; 1610; 1583; 1603]; [1578; 1583; 1604; 1604];
    [1605; 1605; 1606; 1608; 1606]; [1588; 1603; 1585; 1575]; u "thank you";
    u "welcome"; [1603; 1605; 1604; 1606]; [1575; 1606; 1578; 1607; 1609] ].
Definition kw_zabbix_monitoring : list str :=
  [ u "zabbix"; [1586; 1575; 1576; 1603; 1587];
    [1605; 1575; 1580; 1575; 1576; 1607; 32; 1575; 1604; 1586; 1575; 1576; 1603; 1587];
    [1605; 1580; 1575; 1576; 1607; 1575; 32; 1575; 1604; 1586; 1575; 1576; 1603; 1587] ].

Definition kw_port_down : list str :=
  [ u "port"; [1576; 1608; 1585; 1578]; [1576; 1608; 1585; 1578; 1575; 1578];
    u "ports down"; u "link down" ].

Definition kw_temperature : list str :=
  [ u "temperature"; [1581; 1585; 1575; 1585; 1577];
    [1578; 1605; 1576; 1585; 1580; 1585]; u "trigger" ].

Definition kw_outage : list str :=
  [ [1602; 1591; 1593]; [1602; 1591; 1608; 1593; 1575; 1578]; u "down";
    u "offline"; [1591; 1601; 1578]; [1605; 1606; 1602; 1591; 1593] ].

Definition kw_configuration : list str :=
  [ u "edit"; u "change"; [1578; 1593; 1583; 1610; 1604]; [1593; 1583; 1604];
    u "oid"; u "class" ].

Definition kw_alarm : list str :=
  [ u "alarm"; [1575; 1604; 1585; 1605]; [1605; 1588; 1603; 1604; 1577];
    u "error" ].

#[local] Close Scope N_scope.

(** The categories dictionary of [_categorize_issue], in insertion order. *)
Definition categories : list (Category * list str) :=
  [ (zabbix_monitoring, kw_zabbix_monitoring);
    (port_down, kw_port_down);
    (temperature, kw_temperature);
    (outage, kw_outage);
    (configuration, kw_configuration);
    (alarm, kw_alarm) ].

Section Classifier.

(** [str.lower] follows the Unicode case tables of the interpreter;
    they are taken as given. *)
Variable lower : str -> str.

Definition _classify_message_type
    (st : SenderType) (text : str) (has_ticket : bool) : MessageType :=
  let content_lower := lower text in
  match st with
  | customer =>
      if any_in issue_indicators content_lower then issue_report
      else if has_ticket then issue_report
      else if _contains_keywords text patterns_follow_up then follow_up
      else general
  | support =>
      if any_in resolution_indicators content_lower then resolution
      else if _contains_keywords text patterns_acknowledgment then acknowledgment
      else if _contains_keywords text patterns_request_action then request_info
      else response
  | unknown => other
  end.

Definition _categorize_issue (text : str) : Category :=
  let content_lower := lower text in
  default other_category
    (fst <$> find (fun kv => any_in (snd kv) content_lower) categories).

End Classifier.

(** ** [classify_messages] *)

(** The dictionaries that [parse_whatsapp_file] stores in
    [self.raw_messages]. *)
Record RawMessage := {
  raw_timestamp : datetime;
  raw_sender : str;
  raw_content : str;
  raw_has_ticket_id : bool;
  raw_ticket_ids : list str;
  raw_language : Language
}.

Section ClassifyMessages.

Variable lower : str -> str.
Variables customers support_staff : gset str.

Definition classify_message (msg_data : RawMessage) : Message :=
  let who := raw_sender msg_data in
  let text := lower (raw_content msg_data) in
  let st :=
    if decide (who ∈ customers) then customer
    else if decide (who ∈ support_staff) then support
    else unknown in
  {| timestamp := raw_timestamp msg_data;
     sender := who;
     sender_type := st;
     content := raw_content msg_data;
     message_type := _classify_message_type lower st text (raw_has_ticket_id msg_data);
     language := raw_language msg_data;
     has_ticket_id := raw_has_ticket_id msg_data;
     msg_ticket_ids := raw_ticket_ids msg_data |}.

Definition classify_messages (raw_messages : list RawMessage) : list Message :=
  classify_message <$> raw_messages.

End ClassifyMessages.

(** ** Issue segmentation engine: [group_into_issues] *)

Definition max_gap : timedelta := hours 2.

Definition is_customer (msg : Message) : bool :=
  bool_decide (sender_type msg = customer).
Definition is_support (msg : Message) : bool :=
  bool_decide (sender_type msg = support).
(** [msg.message_type in types] *)
Definition type_in (msg : Message) (types : list MessageType) : bool :=
  bool_decide (message_type msg ∈ types).

(** Rebuilds an issue from its creation-time fields and the eight fields
    the loop assigns to. *)
Definition update (i : Issue) (tids : list str) (et : option datetime)
    (s : Status) (msgs : list Message) (frt rt : option timedelta)
    (n : nat) (sp : gset str) : Issue :=
  {| issue_id := issue_id i; ticket_ids := tids; reporter := reporter i;
     initial_message := initial_message i; start_time := start_time i;
     end_time := et; status := s; messages := msgs;
     first_response_time := frt; resolution_time := rt;
     total_responses := n; category := category i;
     issue_language := issue_language i; support_participants := sp |}.

Definition set_ticket_ids (x : list str) (i : Issue) : Issue :=
  update i x (end_time i) (status i) (messages i) (first_response_time i)
    (resolution_time i) (total_responses i) (support_participants i).
Definition set_end_time (x : option datetime) (i : Issue) : Issue :=
  update i (ticket_ids i) x (status i) (messages i) (first_response_time i)
    (resolution_time i) (total_responses i) (support_participants i).
Definition set_status (x : Status) (i : Issue) : Issue :=
  update i (ticket_ids i) (end_time i) x (messages i) (first_response_time i)
    (resolution_time i) (total_responses i) (support_participants i).
Definition set_messages (x : list Message) (i : Issue) : Issue :=
  update i (ticket_ids i) (end_time i) (status i) x (first_response_time i)
    (resolution_time i) (total_responses i) (support_participants i).
Definition set_first_response_time (x : option timedelta) (i : Issue) : Issue :=
  update i (ticket_ids i) (end_time i) (status i) (messages i) x
    (resolution_time i) (total_responses i) (support_participants i).
Definition set_resolution_time (x : option timedelta) (i : Issue) : Issue :=
  update i (ticket_ids i) (end_time i) (status i) (messages i)
    (first_response_time i) x (total_responses i) (support_participants i).
Definition set_total_responses (x : nat) (i : Issue) : Issue :=
  update i (ticket_ids i) (end_time i) (status i) (messages i)
    (first_response_time i) (resolution_time i) x (support_participants i).
Definition set_support_participants (x : gset str) (i : Issue) : Issue :=
  update i (ticket_ids i) (end_time i) (status i) (messages i)
    (first_response_time i) (resolution_time i) (total_responses i) x.

(** [issue.messages[-1].timestamp]; [None] stands for the [IndexError] of an
    empty list. *)
Definition last_timestamp (i : Issue) : option datetime :=
  timestamp <$> last (messages i).

(** The intents that count as a response of the support side. *)
Definition response_types : list MessageType :=
  [acknowledgment; response; request_info].

(** The loop variables: the list [self.issues], the variable [current_issue]
    (a reference to an element of that list, kept as its index, or [None])
    and [issue_counter]. *)
Record State := {
  issues : list Issue;
  current_issue : option nat;
  issue_counter : nat
}.

Definition initial_state : State :=
  {| issues := []; current_issue := None; issue_counter := 1 |}.

(** Which arm of the loop body a message went through. *)
Inductive Branch :=
  | StartOnReport   (* customer issue report: lines 482-509 *)
  | Appended        (* belongs to the current issue: lines 522-549 *)
  | StartOnBreak    (* does not belong, customer report or general: 552-577 *)
  | SkippedOnBreak  (* does not belong, anything else *)
  | SkippedNoIssue. (* no current issue *)

(** [if current_issue.status == 'open': status = 'pending'; end_time = ...] *)
Definition close_pending (i : Issue) : option Issue :=
  if decide (status i = open) then
    t ← last_timestamp i;
    Some (set_end_time (Some t) (set_status pending i))
  else Some i.

Definition belongs_to_issue (cur : Issue) (msg : Message) : option bool :=
  t ← last_timestamp cur;
  let time_gap := timestamp msg - t in
  Some (bool_decide (time_gap ≤ max_gap)
        || existsb (fun tid => bool_decide (tid ∈ msg_ticket_ids msg)) (ticket_ids cur)
        || (is_customer msg && type_in msg [follow_up; general])).

(** Lines 526-544: bookkeeping for a message of the support side. *)
Definition track_support (msg : Message) (cur : Issue) : Issue :=
  if is_support msg then
    let cur := set_support_participants ({[sender msg]} ∪ support_participants cur) cur in
    let cur :=
      match first_response_time cur with
      | None =>
          if type_in msg [acknowledgment; response; request_info]
          then set_first_response_time (Some (timestamp msg - start_time cur)) cur
          else cur
      | Some _ => cur
      end in
    let cur :=
      if type_in msg [response; acknowledgment; request_info]
      then set_total_responses (S (total_responses cur)) cur
      else cur in
    if decide (message_type msg = resolution) then
      set_resolution_time (Some (timestamp msg - start_time cur))
        (set_end_time (Some (timestamp msg)) (set_status resolved cur))
    else cur
  else cur.

(** Lines 547-549. *)
Definition add_ticket_ids (msg : Message) (cur : Issue) : Issue :=
  set_ticket_ids
    (foldl (fun acc tid => if bool_decide (tid ∈ acc) then acc else acc ++ [tid])
       (ticket_ids cur) (msg_ticket_ids msg))
    cur.

Definition append_message (msg : Message) (cur : Issue) : Issue :=
  add_ticket_ids msg (track_support msg (set_messages (messages cur ++ [msg]) cur)).

(** A message of the support side classified as a resolution. *)
Definition resolves (msg : Message) : bool :=
  is_support msg && bool_decide (message_type msg = resolution).

(** A message of the support side that counts as a first response. *)
Definition responds (msg : Message) : bool :=
  is_support msg && type_in msg [acknowledgment; response; request_info].

Section Segmentation.

Variable lower : str -> str.

(** A fresh issue seeded by [msg].  The identifier [ISSUE_%04d] is kept
    as the number it prints. *)
Definition new_issue (counter : nat) (msg : Message) : Issue :=
  {| issue_id := counter;
     ticket_ids := msg_ticket_ids msg;
     reporter := sender msg;
     initial_message := content msg;
     start_time := timestamp msg;
     end_time := None;
     status := open;
     messages := [msg];
     first_response_time := None;
     resolution_time := None;
     total_responses := 0;
     category := _categorize_issue lower (content msg);
     issue_language := language msg;
     support_participants := ∅ |}.

(** [self.issues.append(current_issue); issue_counter += 1] *)
Definition start_issue (st : State) (stored : list Issue) (msg : Message) : State :=
  {| issues := stored ++ [new_issue (issue_counter st) msg];
     current_issue := Some (length stored);
     issue_counter := S (issue_counter st) |}.

(** One iteration of the loop.  [None] is an exception of the interpreter
    (an index into an empty message list). *)
Definition process_message (st : State) (msg : Message) : option (Branch * State) :=
  if bool_decide (message_type msg = issue_report) && is_customer msg then
    stored ←
      match current_issue st with
      | Some c =>
          cur ← issues st !! c;
          cur' ← close_pending cur;
          Some (<[c := cur']> (issues st))
      | None => Some (issues st)
      end;
    Some (StartOnReport, start_issue st stored msg)
  else
    match current_issue st with
    | Some c =>
        cur ← issues st !! c;
        belongs ← belongs_to_issue cur msg;
        if belongs : bool then
          Some (Appended,
                {| issues := <[c := append_message msg cur]> (issues st);
                   current_issue := Some c;
                   issue_counter := issue_counter st |})
        else if is_customer msg && type_in msg [issue_report; general] then
          cur' ← close_pending cur;
          Some (StartOnBreak, start_issue st (<[c := cur']> (issues st)) msg)
        else Some (SkippedOnBreak, st)
    | None => Some (SkippedNoIssue, st)
    end.

Fixpoint process_all (st : State) (msgs : list Message) : option State :=
  match msgs with
  | [] => Some st
  | msg :: rest =>
      r ← process_message st msg;
      process_all r.2 rest
  end.

(** Lines 580-586: closing what is still open at the end of the stream. *)
Definition finalize_issue (i : Issue) : option Issue :=
  if decide (status i = open) then
    t ← last_timestamp i;
    let i := set_end_time (Some t) i in
    Some (set_status (if truthy (first_response_time i) then pending else no_response) i)
  else Some i.

Definition finalize (l : list Issue) : option (list Issue) :=
  mapM finalize_issue l.

Definition group_into_issues (msgs : list Message) : option (list Issue) :=
  st ← process_all initial_state msgs;
  finalize (issues st).

End Segmentation.

(** ** KPI aggregator: counts and rates of [calculate_kpis] *)

Record Kpis := {
  total_issues : nat;
  resolved_issues : nat;
  pending_issues : nat;
  no_response_issues : nat;
  resolution_rate : Q;
  response_rate : Q
}.

Inductive KpiResult :=
  | KpiError (message : string)
  | KpiValues (k : Kpis).

Definition count_status (s : Status) (l : list Issue) : nat :=
  length (filter (fun i => status i = s) l).

(** [[i.first_response_time for i in self.issues if i.first_response_time]] *)
Definition response_times (l : list Issue) : list timedelta :=
  omap (fun i => if truthy (first_response_time i) then first_response_time i else None) l.

Section Rates.

(** Rounding of a real result to the nearest [float]. *)
Variable fl : Q -> Q.

(** [(num / den * 100) if den > 0 else 0] *)
Definition rate (num den : nat) : Q :=
  if decide (0 < den)%nat
  then fl (fl (inject_Z (Z.of_nat num) / inject_Z (Z.of_nat den)) * 100)
  else 0.

Definition calculate_kpis (l : list Issue) : KpiResult :=
  match l with
  | [] => KpiError "No issues found"
  | _ :: _ =>
      let total := length l in
      let resolved := count_status resolved l in
      KpiValues
        {| total_issues := total;
           resolved_issues := resolved;
           pending_issues := count_status pending l;
           no_response_issues := count_status no_response l;
           resolution_rate := rate resolved total;
           response_rate := rate (length (response_times l)) total |}
  end.

End Rates.

(** ** A small transcript

    Lower case on ASCII text, and a chat between one customer and one
    member of the support staff, with the minute resolution of the
    export. *)

Definition ascii_lower (s : str) : str :=
  (fun c => if (65 <=? c) && (c <=? 90) then c + 32 else c)%N <$> s.

Definition minutes (m : Z) : datetime := m * 60 * 1000000.

Definition chat_customers : gset str := {[ u "Huda" ]}.
Definition chat_support_staff : gset str := {[ u "Omar Noc" ]}.

Definition said (t : datetime) (who text : str) : RawMessage :=
  {| raw_timestamp := t; raw_sender := who; raw_content := text;
     raw_has_ticket_id :=
       bool_decide (extract_ticket_ids ascii_isdecimal ascii_isalnum text ≠ []);
     raw_ticket_ids := extract_ticket_ids ascii_isdecimal ascii_isalnum text;
     raw_language := english |}.

Definition chat1 (msg_data : RawMessage) : Message :=
  classify_message ascii_lower chat_customers chat_support_staff msg_data.

Definition chat (raw_messages : list RawMessage) : list Message :=
  classify_messages ascii_lower chat_customers chat_support_staff raw_messages.

Definition huda : str := u "Huda".
Definition omar : str := u "Omar Noc".

Definition port5_report : Message := chat1 (said 0 huda (u "Port 5 is down")).
Definition port7_report : Message := chat1 (said (minutes 5) huda (u "Port 7 is down")).
Definition checking_reply : Message := chat1 (said (minutes 1) omar (u "checking")).
Definition greeting : Message := chat1 (said 0 huda (u "good morning")).

Definition same_minute_reply : Message := chat1 (said 0 omar (u "checking")).
Definition done_reply : Message := chat1 (said (minutes 40) omar (u "done, fixed")).
Definition welcome_reply : Message := chat1 (said (minutes 42) omar (u "welcome")).

(** The state of the loop after [port5_report] alone. *)
Definition one_open_issue : State :=
  start_issue ascii_lower initial_state [] port5_report.

(** The issue and the state after [port5_report] and [checking_reply]. *)
Definition answered_issue : Issue :=
  append_message checking_reply (new_issue ascii_lower 1 port5_report).

Definition one_answered_issue : State :=
  {| issues := [answered_issue]; current_issue := Some 0%nat; issue_counter := 2 |}.



(** Two messages that arrive 121 minutes after the report, and a customer
    message that mentions a ticket and has no keyword. *)
Definition late_reply : Message := chat1 (said (minutes 121) omar (u "on my way")).
Definition late_greeting : Message := chat1 (said (minutes 121) huda (u "good morning")).
Definition ticket_mention : Message := chat1 (said 0 huda (u "9563926 please")).

(** ** The continuation rule in the words of the specification

    The gap to the last message of the issue is at most two hours, or the
    message shares a ticket reference with the issue, or it is a customer
    message with intent follow-up or general. *)
Definition spec_continuation (cur : Issue) (msg : Message) : Prop :=
  (∃ m, last (messages cur) = Some m ∧ timestamp msg - timestamp m ≤ hours 2)
  ∨ (∃ tid, tid ∈ ticket_ids cur ∧ tid ∈ msg_ticket_ids msg)
  ∨ (sender_type msg = customer ∧
     (message_type msg = follow_up ∨ message_type msg = general)).

(** ** Invariants of the loop *)

(** The first message of the issue that counts as a first response. *)
Definition first_response (iss : Issue) : option Message :=
  find responds (messages iss).

Definition issue_inv (iss : Issue) : Prop :=
  messages iss ≠ [] ∧
  first_response_time iss =
    (fun m => timestamp m - start_time iss) <$> first_response iss ∧
  (is_Some (resolution_time iss) ↔ status iss = resolved).



(** [current_issue] is the issue stored last, and it was never closed as
    pending or unanswered. *)
Definition state_inv (st : State) : Prop :=
  Forall issue_inv (issues st) ∧
  match current_issue st with
  | None => issues st = []
  | Some c =>
      S c = length (issues st) ∧
      ∃ cur, issues st !! c = Some cur ∧ (status cur = open ∨ status cur = resolved)
  end.

(** ** Helpers of the parser *)

#[local] Open Scope N_scope.

Definition issue_keywords_arabic : list str :=
  [ [1605; 1588; 1603; 1604; 1577]; [1593; 1591; 1604]; [1582; 1591; 1571];
    [1591; 1601; 1578]; [1591; 1575; 1601; 1610]; [1591; 1601; 1607];
    [1605; 1606; 1602; 1591; 1593]; [1605; 1575; 1580; 1575; 1576; 1607];
    [1605; 1575; 1580; 1575; 1576; 1607; 1575];
    [1605; 1580; 1575; 1576; 1607]; [1605; 1580; 1575; 1576; 1607; 1575];
    [1605; 1608; 32; 1588; 1594; 1575; 1604];
    [1605; 1575; 32; 1610; 1588; 1578; 1594; 1604]; [1576; 1608; 1610; 1577];
    [1576; 1608; 1610; 1607]; [1576; 1608; 1610; 1606; 1578];
    [1576; 1608; 1610; 1606; 1578; 1575; 1578]; [1576; 1608; 1585; 1578];
    [1576; 1608; 1585; 1578; 1575; 1578]; [1602; 1591; 1593];
    [1602; 1591; 1608; 1593; 1575; 1578]; u "down"; u "offline";
    [1604; 1591; 1588]; [1605; 1593; 1604; 1602];
    [1591; 1575; 1601; 1610; 1607]; [1591; 1575; 1601; 1610];
    [1591; 1601; 1578]; [1602; 1591; 1608; 1593; 1575; 1578];
    [1576; 1608; 1585; 1578; 1575; 1578; 32; 1591; 1601; 1578];
    [1576; 1608; 1585; 1578; 1575; 1578; 32; 1591; 1575; 1601; 1610];
    [1605; 1580; 1575; 1576; 1607; 32; 1575; 1604; 1586; 1575; 1576; 1603; 1587];
    [1605; 1575; 1580; 1575; 1576; 1607; 1575; 32; 1575; 1604; 1586; 1575; 1576; 1603; 1587];
    [1605; 1575; 1580; 1575; 1576; 1607; 32; 1575; 1604; 1586; 1575; 1576; 1603; 1587];
    [1602; 1591; 1593; 32; 1605; 1575; 32; 1576; 1610; 1606];
    [1602; 1591; 1593; 32; 1605; 1580; 1575; 1610; 1576; 1607];
    [1602; 1591; 1608; 1593; 1575; 1578; 32; 1605; 1580; 1575; 1610; 1576; 1607; 1575] ].

Definition issue_keywords_english : list str :=
  [ u "issue"; u "problem"; u "error"; u "down"; u "offline"; u "not working";
    u "failed"; u "fault"; u "port down"; u "ports down"; u "link down";
    u "trigger"; u "alarm"; u "unknown status"; u "ticket"; u "ticketid" ].

Definition resolution_arabic : list str :=
  [ [1578; 1605]; [1575; 1606; 1581; 1604]; [1575; 1588; 1578; 1594; 1604];
    [1588; 1594; 1575; 1604]; u "done"; u "solved"; u "fixed"; u "recheck";
    [1603; 1605; 1604; 1606]; [1575; 1606; 1578; 1607; 1609];
    [1582; 1604; 1575; 1589]; [1590; 1576; 1591]; [1578; 1605; 1575; 1605];
    u "ok"; [1593; 1575; 1588; 1578; 32; 1575; 1610; 1583; 1603];
    [1608; 1575; 1610; 1583; 1603]; [1578; 1583; 1604; 1604];
    [1605; 1605; 1606; 1608; 1606]; [1588; 1603; 1585; 1575]; u "thank you" ].

Definition resolution_english : list str :=
  [ u "done"; u "fixed"; u "solved"; u "resolved"; u "completed"; u "recheck";
    u "working now"; u "all good"; u "ok"; u "solved"; u "thank you";
    u "thanks"; u "welcome" ].

Definition closure_words : list str :=
  [ u "done"; u "recheck";
    [1578; 1605; 1575; 1605; 32; 1581; 1576; 1610; 1576; 1610];
    [1607; 1587; 1607; 32; 1575; 1580; 1610; 1603] ].

#[local] Close Scope N_scope.

(** The classes [[؀-ۿ]] and [[a-zA-Z]]. *)
Definition is_arabic_char (c : N) : bool := ((1536 <=? c) && (c <=? 1791))%N.
Definition is_latin_letter (c : N) : bool :=
  (((97 <=? c) && (c <=? 122)) || ((65 <=? c) && (c <=? 90)))%N.

(** [len(re.findall(cls, text))] for a class of single characters. *)
Definition count_chars (cls : N -> bool) (text : str) : nat :=
  length (filter (fun c => cls c = true) text).

Definition _detect_language (text : str) : Language :=
  let arabic_chars := count_chars is_arabic_char text in
  let english_chars := count_chars is_latin_letter text in
  if decide (english_chars * 2 < arabic_chars)%nat then arabic
  else if decide (arabic_chars * 2 < english_chars)%nat then english
  else mixed.

(** [set(msg['sender'] for msg in raw_messages)] *)
Definition collect_senders (raw_messages : list RawMessage) : gset str :=
  list_to_set (raw_sender <$> raw_messages).

(** ** Member role resolver *)

(** The order of [str]: code point by code point, a proper prefix first. *)
Fixpoint str_leb (a b : str) : bool :=
  match a, b with
  | [], _ => true
  | _ :: _, [] => false
  | x :: a', y :: b' => (x <? y)%N || ((x =? y)%N && str_leb a' b')
  end.

Definition str_le (a b : str) : Prop := str_leb a b = true.

#[global] Instance str_le_dec : RelDecision str_le.
Proof. intros a b. unfold str_le. apply _. Defined.

(** [sorted] on a collection of strings. *)
Definition sorted (l : list str) : list str := merge_sort str_le l.

Record SenderAnalysis := {
  issue_count : nat;
  response_count : nat;
  has_acknowledgments : nat;
  has_resolutions : nat;
  likely_customer : bool
}.

(** [self.customers] and [self.support_staff]. *)
Record Members := {
  customers : gset str;
  support_staff : gset str
}.

Section MemberRoles.

Variable lower : str -> str.
Variable isalnum : N -> bool.

(** One alternative of [\b(done|recheck|...)\b] at position [i]. *)
Definition closure_word_at (s : str) (i : nat) (w : str) : bool :=
  at_boundary isalnum s i && startswith w (drop i s)
  && at_boundary isalnum s (i + length w).

(** [re.search(r'\b(done|recheck|...)\b', s)] as a truth value: some
    position and some alternative match. *)
Definition search_closure (s : str) : bool :=
  existsb (fun i => existsb (closure_word_at s i) closure_words)
    (seq 0 (S (length s))).

(** The four counters of the loop of [_analyze_sender_behavior]. *)
Definition analyze_message (acc : nat * nat * nat * nat) (msg : RawMessage)
    : nat * nat * nat * nat :=
  let '(issue_count, response_count, has_acknowledgments, has_resolutions) := acc in
  let content_lower := lower (raw_content msg) in
  let issue_count :=
    if any_in (issue_keywords_arabic ++ issue_keywords_english) content_lower
    then S issue_count else issue_count in
  let has_acknowledgments :=
    if any_in (acknowledgment_arabic ++ acknowledgment_english) content_lower
    then S has_acknowledgments else has_acknowledgments in
  let has_resolutions :=
    if any_in (resolution_arabic ++ resolution_english) content_lower
    then S has_resolutions else has_resolutions in
  let response_count :=
    if search_closure content_lower then S response_count else response_count in
  (issue_count, response_count, has_acknowledgments, has_resolutions).

Definition _analyze_sender_behavior (msgs : list RawMessage) : SenderAnalysis :=
  let '(issue_count, response_count, has_acknowledgments, has_resolutions) :=
    foldl analyze_message (0, 0, 0, 0)%nat msgs in
  {| issue_count := issue_count;
     response_count := response_count;
     has_acknowledgments := has_acknowledgments;
     has_resolutions := has_resolutions;
     likely_customer :=
       bool_decide (response_count < issue_count)%nat
       && bool_decide (has_resolutions < 3)%nat |}.

(** The body of the loop of [classify_members] for one sender. *)
Definition classify_member (raw_messages : list RawMessage)
    (m : Members) (who : str) : Members :=
  let sender_messages := filter (fun r => raw_sender r = who) raw_messages in
  let analysis := _analyze_sender_behavior sender_messages in
  if likely_customer analysis
  then {| customers := {[who]} ∪ customers m; support_staff := support_staff m |}
  else {| customers := customers m; support_staff := {[who]} ∪ support_staff m |}.

Definition classify_members (raw_messages : list RawMessage)
    (all_senders : gset str) (m : Members) : Members :=
  let unclassified := all_senders ∖ customers m ∖ support_staff m in
  foldl (classify_member raw_messages) m (sorted (elements unclassified)).

End MemberRoles.

(** ** Timing patterns of the aggregator *)

(** A [defaultdict(int)] filled by [d[k] += 1], as the list of its items
    in insertion order. *)
Fixpoint bump {K} `{EqDecision K} (k : K) (d : list (K * nat)) : list (K * nat) :=
  match d with
  | [] => [(k, 1%nat)]
  | (k', n) :: d' =>
      if decide (k = k') then (k', S n) :: d' else (k', n) :: bump k d'
  end.

(** The value stored under a key, 0 when the key is absent. *)
Definition tally {K} `{EqDecision K} (k : K) (d : list (K * nat)) : nat :=
  list_sum (snd <$> filter (fun kv => kv.1 = k) d).

Definition count_by {K} `{EqDecision K} {A} (key : A -> K) (l : list A)
    : list (K * nat) :=
  foldl (fun d x => bump (key x) d) [] l.

Record ResponseTimeRanges := {
  under_5_min : nat;
  from_5_to_15_min : nat;
  from_15_to_30_min : nat;
  from_30_to_60_min : nat;
  over_1_hour : nat
}.

Record TimingAnalysis := {
  hour_distribution : list (Z * nat);
  weekday_distribution : list (str * nat);
  response_time_ranges : ResponseTimeRanges
}.

Definition Qlt_bool (x y : Q) : bool := negb (Qle_bool y x).

Section Timing.

(** Rounding to a [float], the hour of a [datetime] and the name of its
    day of the week, [strftime('%A')]. *)
Variable fl : Q -> Q.
Variable hour : datetime -> Z.
Variable weekday : datetime -> str.

(** [timedelta.total_seconds()]: the microseconds divided by [10**6]. *)
Definition total_seconds (d : timedelta) : Q :=
  fl (inject_Z d / inject_Z 1000000).

Definition count_where (p : Q -> bool) (times : list timedelta) : nat :=
  length (filter (fun rt => p (total_seconds rt) = true) times).

(** [{}] for no issue at all is [None]. *)
Definition _analyze_timing_patterns (l : list Issue) : option TimingAnalysis :=
  match l with
  | [] => None
  | _ :: _ =>
      let response_times := response_times l in
      Some
        {| hour_distribution := count_by (fun i => hour (start_time i)) l;
           weekday_distribution := count_by (fun i => weekday (start_time i)) l;
           response_time_ranges :=
             {| under_5_min :=
                  count_where (fun s => Qlt_bool s 300) response_times;
                from_5_to_15_min :=
                  count_where (fun s => Qle_bool 300 s && Qlt_bool s 900) response_times;
                from_15_to_30_min :=
                  count_where (fun s => Qle_bool 900 s && Qlt_bool s 1800) response_times;
                from_30_to_60_min :=
                  count_where (fun s => Qle_bool 1800 s && Qlt_bool s 3600) response_times;
                over_1_hour :=
                  count_where (fun s => Qle_bool 3600 s) response_times |} |}
  end.

End Timing.

(** ** Latency statistics and rankings of the aggregator *)

(** Division of a [timedelta] by an [int]: the quotient of the
    microseconds rounded to the nearest integer, a tie going to the even
    one. *)
Definition _divide_and_round (a b : Z) : Z :=
  let q := a / b in
  let r := 2 * (a mod b) in
  let greater_than_half := if 0 <? b then b <? r else r <? b in
  if greater_than_half || ((r =? b) && (q mod 2 =? 1)) then q + 1 else q.

Definition sum_timedelta (times : list timedelta) : timedelta :=
  foldl Z.add 0 times.

Definition min_timedelta (t : timedelta) (times : list timedelta) : timedelta :=
  foldl Z.min t times.

Definition max_timedelta (t : timedelta) (times : list timedelta) : timedelta :=
  foldl Z.max t times.

Record LatencyStats := {
  avg_time : timedelta;
  min_time : option timedelta;
  max_time : option timedelta
}.

(** Lines 648-656 and 659-667 of [calculate_kpis], for the list of
    latencies that are set and not zero. *)
Definition latency_stats (times : list timedelta) : LatencyStats :=
  match times with
  | [] => {| avg_time := 0; min_time := None; max_time := None |}
  | t :: rest =>
      {| avg_time := _divide_and_round (sum_timedelta times) (Z.of_nat (length times));
         min_time := Some (min_timedelta t rest);
         max_time := Some (max_timedelta t rest) |}
  end.

(** [[i.resolution_time for i in self.issues if i.resolution_time]] *)
Definition resolution_times (l : list Issue) : list timedelta :=
  omap (fun i => if truthy (resolution_time i) then resolution_time i else None) l.

(** [sorted(items, key=lambda x: x[1], reverse=True)]: by falling count,
    items with the same count in their former order. *)
Fixpoint insert_by_count {K} (x : K * nat) (l : list (K * nat)) : list (K * nat) :=
  match l with
  | [] => [x]
  | y :: l' =>
      if decide (y.2 ≤ x.2)%nat then x :: y :: l' else y :: insert_by_count x l'
  end.

Definition sorted_by_count {K} (items : list (K * nat)) : list (K * nat) :=
  foldr insert_by_count [] items.

#[global] Instance Category_eq_dec : EqDecision Category.
Proof. solve_decision. Defined.

Definition category_distribution (l : list Issue) : list (Category * nat) :=
  sorted_by_count (count_by category l).

Definition top_reporters (l : list Issue) : list (str * nat) :=
  take 10 (sorted_by_count (count_by reporter l)).

(** ** Further notions on runs of the segmentation engine *)

(** A customer issue report, the only kind of message that starts an
    issue. *)
Definition customer_report (msg : Message) : bool :=
  bool_decide (message_type msg = issue_report) && is_customer msg.

(** The messages that were put into some issue, issue after issue. *)
Definition assigned (l : list Issue) : list Message :=
  concat (messages <$> l).

(** The bookkeeping fields of an issue, read off its messages. *)
Definition tickets_ok (iss : Issue) : Prop :=
  ∀ tid, tid ∈ ticket_ids iss ↔
         ∃ m, m ∈ messages iss ∧ tid ∈ msg_ticket_ids m.

Definition participants_ok (iss : Issue) : Prop :=
  ∀ who, who ∈ support_participants iss ↔
         ∃ m, m ∈ messages iss ∧ sender_type m = support ∧ sender m = who.

Definition responses_ok (iss : Issue) : Prop :=
  total_responses iss = length (filter (fun m => responds m = true) (messages iss)) ∧
  (is_Some (first_response_time iss) ↔ (0 < total_responses iss)%nat).

(** What is true of the time fields of every issue that is returned when
    the messages arrive in time order. *)
Definition times_ok (iss : Issue) : Prop :=
  StronglySorted Z.le (timestamp <$> messages iss) ∧
  (∀ d, first_response_time iss = Some d → 0 ≤ d) ∧
  (∀ d, resolution_time iss = Some d → 0 ≤ d) ∧
  ∃ e, end_time iss = Some e ∧ start_time iss ≤ e.

(** Time order inside an issue whose messages arrived up to time [T]. *)
Definition time_ok (T : datetime) (iss : Issue) : Prop :=
  StronglySorted Z.le (timestamp <$> messages iss) ∧
  Forall (fun m => start_time iss ≤ timestamp m ≤ T) (messages iss) ∧
  start_time iss ≤ T ∧
  (∀ d, first_response_time iss = Some d → 0 ≤ d) ∧
  (∀ d, resolution_time iss = Some d → 0 ≤ d) ∧
  (∀ e, end_time iss = Some e → start_time iss ≤ e ≤ T) ∧
  (status iss ≠ open → is_Some (end_time iss)).

(** * Properties *)

(** ** Field-wise effect of appending a message *)

Ltac append_fields :=
  unfold append_message, add_ticket_ids, track_support, resolves, responds;
  destruct (is_support _); simpl;
  repeat (case_match; simpl in *; simplify_eq);
  rewrite ?bool_decide_eq_true, ?bool_decide_eq_false in *;
  try done.

Lemma append_message_messages msg cur :
  messages (append_message msg cur) = messages cur ++ [msg].
Proof. append_fields. Qed.

Lemma append_message_start_time msg cur :
  start_time (append_message msg cur) = start_time cur.
Proof. append_fields. Qed.

Lemma append_message_first_response_time msg cur :
  first_response_time (append_message msg cur) =
  match first_response_time cur with
  | Some d => Some d
  | None => if responds msg then Some (timestamp msg - start_time cur) else None
  end.
Proof. append_fields. Qed.

Lemma append_message_status msg cur :
  status (append_message msg cur) =
  if resolves msg then resolved else status cur.
Proof. append_fields. Qed.

Lemma append_message_end_time msg cur :
  end_time (append_message msg cur) =
  if resolves msg then Some (timestamp msg) else end_time cur.
Proof. append_fields. Qed.

Lemma append_message_resolution_time msg cur :
  resolution_time (append_message msg cur) =
  if resolves msg then Some (timestamp msg - start_time cur)
  else resolution_time cur.
Proof. append_fields. Qed.

(** ** The loop keeps its invariants and raises no exception *)

Lemma find_snoc {A} (f : A -> bool) (l : list A) (x : A) :
  find f (l ++ [x]) =
  match find f l with
  | Some y => Some y
  | None => if f x then Some x else None
  end.
Proof.
  induction l as [|a l IH]; simpl; [done|].
  destruct (f a); [done | exact IH].
Qed.

Lemma last_timestamp_is_Some iss :
  messages iss ≠ [] → is_Some (last_timestamp iss).
Proof.
  unfold last_timestamp. intros Hne.
  destruct (last (messages iss)) as [m|] eqn:E; [by eexists|].
  apply last_None in E. done.
Qed.

Lemma close_pending_spec iss :
  issue_inv iss →
  ∃ iss', close_pending iss = Some iss' ∧ issue_inv iss' ∧
          status iss' = (if decide (status iss = open) then pending else status iss) ∧
          messages iss' = messages iss ∧
          first_response_time iss' = first_response_time iss ∧
          resolution_time iss' = resolution_time iss ∧
          start_time iss' = start_time iss ∧
          (status iss ≠ open → iss' = iss).
Proof.
  intros Hinv. pose proof Hinv as (Hne & Hfr & Hres). unfold close_pending.
  destruct (decide (status iss = open)) as [Ho|Ho].
  - destruct (last_timestamp_is_Some iss Hne) as [t ->]. simpl.
    eexists; split; [done|].
    split; [|by repeat split].
    split; [done|]. split; [done|]. simpl. rewrite Hres, Ho. done.
  - eexists; split; [done|]. split; [done|]. by repeat split.
Qed.

Lemma append_message_inv msg cur :
  issue_inv cur → issue_inv (append_message msg cur).
Proof.
  intros (Hne & Hfr & Hres). split; [|split].
  - rewrite append_message_messages. by destruct (messages cur).
  - rewrite append_message_first_response_time, append_message_start_time.
    unfold first_response in *.
    rewrite append_message_messages, find_snoc, Hfr.
    destruct (find responds (messages cur)); simpl; [done|].
    by destruct (responds msg).
  - rewrite append_message_resolution_time, append_message_status.
    destruct (resolves msg); [|done]. split; [done | by eexists].
Qed.

Lemma belongs_to_issue_is_Some cur msg :
  issue_inv cur → is_Some (belongs_to_issue cur msg).
Proof.
  intros [Hne _]. unfold belongs_to_issue.
  destruct (last_timestamp_is_Some cur Hne) as [t ->]. by eexists.
Qed.

(** The test of the loop is the continuation rule. *)
Lemma belongs_to_issue_true cur msg :
  belongs_to_issue cur msg = Some true ↔
  messages cur ≠ [] ∧ spec_continuation cur msg.
Proof.
  unfold belongs_to_issue, last_timestamp, spec_continuation, is_customer, type_in.
  destruct (last (messages cur)) as [m|] eqn:E; simpl.
  - assert (messages cur ≠ []) by (intros Hnil; by rewrite Hnil in E).
    rewrite (inj_iff Some), !orb_true_iff, andb_true_iff, !bool_decide_eq_true.
    rewrite existsb_exists.
    split.
    + intros [[Hgap|(tid & Hin & Htid)]|[Hc Hty]]; (split; [done|]).
      * left. eauto.
      * right; left. exists tid. apply bool_decide_eq_true in Htid.
        by rewrite list_elem_of_In.
      * right; right. set_solver.
    + intros [_ [(m' & ? & Hgap)|[(tid & Hin & Htid)|[Hc Hty]]]].
      * simplify_eq. by left; left.
      * left; right. exists tid. rewrite bool_decide_eq_true.
        by rewrite <- list_elem_of_In.
      * right. set_solver.
  - apply last_None in E. split; [done|]. by intros [? _].
Qed.

Section SegmentationInvariants.

Variable lower : str -> str.

Lemma new_issue_inv n msg :
  sender_type msg = customer → issue_inv (new_issue lower n msg).
Proof.
  intros Hc. split; [done|]. split.
  - unfold first_response. simpl.
    unfold responds, is_support. rewrite Hc. done.
  - simpl. split; [by intros [? ?] | done].
Qed.

Lemma start_issue_inv st stored msg :
  Forall issue_inv stored → sender_type msg = customer →
  state_inv (start_issue lower st stored msg).
Proof.
  intros Hall Hc. split; simpl.
  - apply Forall_app. split; [done|]. apply Forall_singleton. by apply new_issue_inv.
  - split; [rewrite length_app; simpl; lia|].
    eexists. split; [apply list_lookup_middle; done|]. by left.
Qed.

Lemma process_message_inv st msg :
  state_inv st →
  ∃ b st', process_message lower st msg = Some (b, st') ∧ state_inv st'.
Proof.
  intros [Hall Hcur]. unfold process_message.
  destruct (bool_decide (message_type msg = issue_report) && is_customer msg) eqn:Htop.
  - apply andb_prop in Htop as [_ Hc%bool_decide_eq_true].
    destruct (current_issue st) as [c|].
    + destruct Hcur as [Hlen (cur & Hlk & Hst)]. rewrite Hlk. simpl.
      destruct (close_pending_spec cur) as (cur' & -> & Hinv' & _).
      { eapply Forall_lookup_1; eauto. }
      simpl. do 2 eexists. split; [done|].
      apply start_issue_inv; [|done]. by apply Forall_insert.
    + simpl. do 2 eexists. split; [done|]. apply start_issue_inv; [|done].
      by rewrite Hcur.
  - destruct (current_issue st) as [c|] eqn:Ec.
    + destruct Hcur as [Hlen (cur & Hlk & Hst)]. rewrite Hlk. simpl.
      assert (Hinv : issue_inv cur) by (eapply Forall_lookup_1; eauto).
      destruct (belongs_to_issue_is_Some cur msg Hinv) as [b ->]. simpl.
      destruct b.
      * do 2 eexists. split; [done|]. split; simpl.
        -- apply Forall_insert; [done|]. by apply append_message_inv.
        -- rewrite length_insert. split; [done|].
           eexists. split.
           ++ apply list_lookup_insert_eq. lia.
           ++ rewrite append_message_status. destruct (resolves msg); auto.
      * destruct (is_customer msg && type_in msg [issue_report; general]) eqn:Hb.
        -- apply andb_prop in Hb as [Hc%bool_decide_eq_true _].
           destruct (close_pending_spec cur Hinv) as (cur' & -> & Hinv' & _).
           simpl. do 2 eexists. split; [done|].
           apply start_issue_inv; [|done]. by apply Forall_insert.
        -- do 2 eexists. split; [done|]. split; [done|]. rewrite Ec. eauto.
    + do 2 eexists. split; [done|]. split; [done|]. by rewrite Ec.
Qed.

Lemma process_all_inv msgs : ∀ st,
  state_inv st →
  ∃ st', process_all lower st msgs = Some st' ∧ state_inv st'.
Proof.
  induction msgs as [|msg rest IH]; intros st Hinv; simpl.
  - eauto.
  - destruct (process_message_inv st msg Hinv) as (b & st1 & -> & Hinv1).
    simpl. by apply IH.
Qed.

Lemma initial_state_inv : state_inv initial_state.
Proof. split; [constructor | reflexivity]. Qed.

Lemma reachable_inv msgs st :
  process_all lower initial_state msgs = Some st → state_inv st.
Proof.
  intros H. destruct (process_all_inv msgs _ initial_state_inv) as (st' & H' & Hinv).
  congruence.
Qed.


End SegmentationInvariants.

(** ** What one iteration does to the stored issues *)

Section SegmentationSteps.

Variable lower : str -> str.

Lemma lookup_start_issue st stored msg i iss :
  stored !! i = Some iss →
  issues (start_issue lower st stored msg) !! i = Some iss.
Proof. intros H. simpl. by apply lookup_app_l_Some. Qed.

(** Every stored issue is left alone, or is the current issue and has the
    message appended, or is the current issue and is closed as pending
    because a new issue starts. *)
Lemma process_message_issue st msg b st' i iss :
  process_message lower st msg = Some (b, st') →
  issues st !! i = Some iss →
  ∃ iss', issues st' !! i = Some iss' ∧
    ((iss' = iss ∧ (current_issue st ≠ Some i ∨ b = SkippedOnBreak))
     ∨ (current_issue st = Some i ∧ b = Appended ∧ iss' = append_message msg iss)
     ∨ (current_issue st = Some i ∧ b ≠ Appended ∧ close_pending iss = Some iss')).
Proof.
  unfold process_message. intros Hstep Hi.
  assert (Hlt : (i < length (issues st))%nat) by (eapply lookup_lt_Some; eauto).
  assert (Hother : ∀ c, c ≠ i → Some c ≠ Some i) by congruence.
  destruct (bool_decide _ && is_customer msg).
  - destruct (current_issue st) as [c|]; simpl in Hstep.
    + destruct (issues st !! c) as [cur|] eqn:Hc; simpl in Hstep; [|done].
      destruct (close_pending cur) as [cur'|] eqn:Hcl; simpl in Hstep; [|done].
      simplify_eq. destruct (decide (c = i)) as [->|Hne].
      * exists cur'. split.
        { apply lookup_start_issue, list_lookup_insert_eq. done. }
        right; right. simplify_eq. done.
      * exists iss. split; [|left; split; [done|]; left; auto].
        apply lookup_start_issue. by rewrite list_lookup_insert_ne.
    + simplify_eq. exists iss. split; [|left; split; [done|]; left; auto]. by apply lookup_start_issue.
  - destruct (current_issue st) as [c|];
      [|simplify_eq; exists iss; split; [done|]; left; split; [done|]; by left].
    destruct (issues st !! c) as [cur|] eqn:Hc; simpl in Hstep; [|done].
    destruct (belongs_to_issue cur msg) as [[]|]; simpl in Hstep; [| |done].
    + simplify_eq. simpl. destruct (decide (c = i)) as [->|Hne].
      * eexists. split; [by apply list_lookup_insert_eq|].
        right; left. simplify_eq. done.
      * exists iss. split; [|left; split; [done|]; left; auto]. by rewrite list_lookup_insert_ne.
    + destruct (is_customer msg && type_in msg [issue_report; general]).
      * destruct (close_pending cur) as [cur'|] eqn:Hcl; simpl in Hstep; [|done].
        simplify_eq. destruct (decide (c = i)) as [->|Hne].
        -- exists cur'. split.
           { apply lookup_start_issue, list_lookup_insert_eq. done. }
           right; right. simplify_eq. done.
        -- exists iss. split; [|left; split; [done|]; left; auto].
           apply lookup_start_issue. by rewrite list_lookup_insert_ne.
      * simplify_eq. exists iss. split; [done|]. left. split; [done|]. by right.
Qed.

(** The arm taken, read off the message and the state. *)
Lemma process_message_branch st msg b st' :
  process_message lower st msg = Some (b, st') →
  match b with
  | StartOnReport =>
      sender_type msg = customer ∧ message_type msg = issue_report ∧
      length (issues st') = S (length (issues st))
  | Appended =>
      ¬ (sender_type msg = customer ∧ message_type msg = issue_report) ∧
      is_Some (current_issue st) ∧
      current_issue st' = current_issue st ∧
      length (issues st') = length (issues st)
  | StartOnBreak => False
  | SkippedOnBreak =>
      is_Some (current_issue st) ∧ st' = st ∧
      ¬ (sender_type msg = customer ∧
         message_type msg ∈ [issue_report; follow_up; general])
  | SkippedNoIssue =>
      current_issue st = None ∧ st' = st ∧
      ¬ (sender_type msg = customer ∧ message_type msg = issue_report)
  end.
Proof.
  unfold process_message. intros Hstep.
  destruct (bool_decide _ && is_customer msg) eqn:Htop.
  - apply andb_prop in Htop as [Hr%bool_decide_eq_true Hc%bool_decide_eq_true].
    destruct (current_issue st) as [c|]; simpl in Hstep.
    + destruct (issues st !! c) as [cur|]; simpl in Hstep; [|done].
      destruct (close_pending cur) as [cur'|]; simpl in Hstep; [|done].
      simplify_eq. repeat split; try done.
      simpl. rewrite length_app, length_insert. simpl. lia.
    + simplify_eq. repeat split; try done.
      simpl. rewrite length_app. simpl. lia.
  - assert (Hnot : ¬ (sender_type msg = customer ∧ message_type msg = issue_report)).
    { intros [Hc Hr]. unfold is_customer in Htop.
      by rewrite !bool_decide_eq_true_2 in Htop. }
    destruct (current_issue st) as [c|] eqn:Ec; [|by simplify_eq].
    destruct (issues st !! c) as [cur|] eqn:Hc; simpl in Hstep; [|done].
    unfold belongs_to_issue in Hstep.
    destruct (last_timestamp cur) as [t|]; simpl in Hstep; [|done].
    match type of Hstep with (if ?x then _ else _) = _ => destruct x eqn:Hb end.
    + simplify_eq. simpl. rewrite length_insert. eauto.
    + apply orb_false_elim in Hb as [_ Hb].
      assert (Hgen : is_customer msg && type_in msg [issue_report; general] = false).
      { unfold is_customer, type_in in *.
        destruct (decide (sender_type msg = customer)) as [Hcust|Hcust].
        - rewrite (bool_decide_eq_true_2 _ Hcust) in *. simpl in *.
          apply bool_decide_eq_false in Hb. apply bool_decide_eq_false.
          set_solver.
        - by rewrite (bool_decide_eq_false_2 _ Hcust). }
      rewrite Hgen in Hstep. simplify_eq. repeat split; [eauto|].
      intros [Hcust Hin]. unfold is_customer, type_in in *.
      rewrite (bool_decide_eq_true_2 _ Hcust) in *. simpl in *.
      apply bool_decide_eq_false in Hb. set_solver.
Qed.

End SegmentationSteps.

(** ** Stored issues along a run *)

Section SegmentationRuns.

Variable lower : str -> str.

(** An issue that appears in the list during an iteration is the fresh one. *)
Lemma lookup_start_issue_new st stored msg i new :
  (length stored ≤ i)%nat →
  issues (start_issue lower st stored msg) !! i = Some new →
  new = new_issue lower (issue_counter st) msg.
Proof.
  intros Hle. simpl. rewrite lookup_app_r by done.
  destruct (i - length stored)%nat; simpl; intros; by simplify_eq.
Qed.

Lemma process_message_new st msg b st' i new :
  process_message lower st msg = Some (b, st') →
  issues st !! i = None →
  issues st' !! i = Some new →
  new = new_issue lower (issue_counter st) msg.
Proof.
  intros Hstep Hnone Hnew.
  apply lookup_ge_None in Hnone.
  unfold process_message in Hstep.
  destruct (bool_decide _ && is_customer msg).
  - destruct (current_issue st) as [c|]; simpl in Hstep.
    + destruct (issues st !! c) as [cur|]; simpl in Hstep; [|done].
      destruct (close_pending cur) as [cur'|]; simpl in Hstep; [|done].
      simplify_eq. eapply lookup_start_issue_new; [|done].
      by rewrite length_insert.
    + simplify_eq. by eapply lookup_start_issue_new.
  - destruct (current_issue st) as [c|].
    2:{ simplify_eq. apply lookup_lt_Some in Hnew. lia. }
    destruct (issues st !! c) as [cur|]; simpl in Hstep; [|done].
    destruct (belongs_to_issue cur msg) as [[]|]; simpl in Hstep; [| |done].
    + simplify_eq. simpl in Hnew. apply lookup_lt_Some in Hnew.
      rewrite length_insert in Hnew. lia.
    + destruct (is_customer msg && type_in msg [issue_report; general]).
      * destruct (close_pending cur) as [cur'|]; simpl in Hstep; [|done].
        simplify_eq. eapply lookup_start_issue_new; [|done].
        by rewrite length_insert.
      * simplify_eq. apply lookup_lt_Some in Hnew. lia.
Qed.

(** A relation between the earlier and the later value of a stored issue
    that holds along every run, provided it holds across the two ways in
    which the loop assigns to an issue. *)
Lemma process_all_related (R : Issue → Issue → Prop) (good : Message → Prop) :
  (∀ x, R x x) →
  (∀ x y z, R x y → R y z → R x z) →
  (∀ msg iss, issue_inv iss → status iss = open ∨ status iss = resolved →
              good msg → R iss (append_message msg iss)) →
  (∀ iss iss', close_pending iss = Some iss' → R iss iss') →
  ∀ more st st' i iss,
    state_inv st → Forall good more →
    process_all lower st more = Some st' →
    issues st !! i = Some iss →
    ∃ iss', issues st' !! i = Some iss' ∧ R iss iss'.
Proof.
  intros Hrefl Htrans Happ Hclose.
  induction more as [|msg rest IH]; intros st st' i iss Hinv Hgood Hrun Hi; simpl in Hrun.
  - simplify_eq. eauto.
  - apply Forall_cons in Hgood as [Hmsg Hrest].
    destruct (process_message_inv lower st msg Hinv) as (b & st1 & Hstep & Hinv1).
    rewrite Hstep in Hrun. simpl in Hrun.
    destruct (process_message_issue lower _ _ _ _ _ _ Hstep Hi)
      as (iss1 & Hi1 & Hcase).
    destruct (IH _ _ _ _ Hinv1 Hrest Hrun Hi1) as (iss' & Hi' & HR).
    exists iss'. split; [done|]. apply Htrans with iss1; [|done].
    destruct Hcase as [[-> _]|[(Hc & _ & ->)|(_ & _ & Hcl)]]; [done| |by eapply Hclose].
    destruct Hinv as [Hall Hcur]. rewrite Hc in Hcur.
    destruct Hcur as (_ & cur & Hlk & Hst). simplify_eq.
    apply Happ; [|done|done]. eapply Forall_lookup_1; eauto.
Qed.

Lemma finalize_lookup l l' i iss :
  finalize l = Some l' → l !! i = Some iss →
  ∃ f, l' !! i = Some f ∧ finalize_issue iss = Some f.
Proof.
  unfold finalize. intros Hf Hi. apply mapM_Some in Hf.
  destruct (Forall2_lookup_l _ _ _ _ _ Hf Hi) as (f & ? & ?). eauto.
Qed.

(** The closing pass raises no exception on issues with messages. *)
Lemma finalize_is_Some l :
  Forall issue_inv l → is_Some (finalize l).
Proof.
  intros Hall. unfold finalize. apply mapM_is_Some.
  eapply Forall_impl; [exact Hall|].
  intros iss [Hne _]. unfold compose, finalize_issue.
  destruct (decide (status iss = open)); [|by eexists].
  destruct (last_timestamp_is_Some iss Hne) as [t ->]. by eexists.
Qed.

Lemma group_into_issues_is_Some msgs :
  is_Some (group_into_issues lower msgs).
Proof.
  unfold group_into_issues.
  destruct (process_all_inv lower msgs _ initial_state_inv) as (st & -> & Hinv).
  simpl. apply finalize_is_Some, Hinv.
Qed.

End SegmentationRuns.

(** ** The arms of the loop *)

Section SegmentationClaims.

Variable lower : str -> str.

Lemma finalize_issue_closed iss f :
  finalize_issue iss = Some f →
  status f ≠ open ∧
  (status iss ≠ open → f = iss) ∧
  first_response_time f = first_response_time iss ∧
  resolution_time f = resolution_time iss ∧
  messages f = messages iss ∧
  start_time f = start_time iss.
Proof.
  unfold finalize_issue. intros Hf.
  destruct (decide (status iss = open)) as [Ho|Ho].
  - destruct (last_timestamp iss); simpl in Hf; [|done]. simplify_eq.
    simpl. repeat split; try done. by destruct (truthy _).
  - by simplify_eq.
Qed.

(** What the closing pass does to an issue that is still open. *)
Lemma finalize_issue_open iss f :
  status iss = open → finalize_issue iss = Some f →
  end_time f = last_timestamp iss ∧
  status f = (if truthy (first_response_time iss) then pending else no_response).
Proof.
  unfold finalize_issue. intros Ho Hf.
  destruct (decide (status iss = open)); [|done].
  destruct (last_timestamp iss); simpl in Hf; [|done]. by simplify_eq.
Qed.

(** C1 (amended): while there is a current issue, a message that is not
    a customer issue report and satisfies the continuation rule is
    appended to the current issue, whether that issue is open or
    resolved, and no issue is created; a customer issue report is never
    appended: it starts a new issue, whatever the continuation rule
    says, and the messages of the current issue stay as they are. *)
Theorem C1_continuation_appends msgs st c cur msg :
  process_all lower initial_state msgs = Some st →
  current_issue st = Some c →
  issues st !! c = Some cur →
  (¬ (sender_type msg = customer ∧ message_type msg = issue_report) →
   spec_continuation cur msg →
   ∃ st', process_message lower st msg = Some (Appended, st') ∧
          issues st' = <[c := append_message msg cur]> (issues st) ∧
          messages (append_message msg cur) = messages cur ++ [msg] ∧
          current_issue st' = Some c ∧
          length (issues st') = length (issues st)) ∧
  (sender_type msg = customer → message_type msg = issue_report →
   ∃ st' cur', process_message lower st msg = Some (StartOnReport, st') ∧
          close_pending cur = Some cur' ∧
          messages cur' = messages cur ∧
          issues st' = <[c := cur']> (issues st)
                         ++ [new_issue lower (issue_counter st) msg] ∧
          messages (new_issue lower (issue_counter st) msg) = [msg] ∧
          current_issue st' = Some (length (issues st)) ∧
          length (issues st') = S (length (issues st))).
Proof.
  intros Hrun Hc Hcur.
  apply reachable_inv in Hrun as [Hall _].
  assert (Hinv : issue_inv cur) by (eapply Forall_lookup_1; eauto).
  split.
  - intros Hnot Hcont.
    assert (Hb : belongs_to_issue cur msg = Some true).
    { apply belongs_to_issue_true. split; [apply Hinv | done]. }
    unfold process_message.
    destruct (bool_decide _ && is_customer msg) eqn:Htop.
    { apply andb_prop in Htop as [Hr%bool_decide_eq_true Hcu%bool_decide_eq_true].
      tauto. }
    rewrite Hc, Hcur. simpl. rewrite Hb.
    eexists. split; [reflexivity|]. split; [reflexivity|].
    split; [apply append_message_messages|]. split; [reflexivity|].
    apply length_insert.
  - intros Hcust Hrep.
    destruct (close_pending_spec cur Hinv) as (cur' & Hcl & _ & _ & Hmsgs & _).
    unfold process_message, is_customer.
    rewrite !bool_decide_eq_true_2 by done. simpl.
    rewrite Hc. simpl. rewrite Hcur. simpl. rewrite Hcl. simpl.
    exists (start_issue lower st (<[c:=cur']> (issues st)) msg), cur'.
    split; [reflexivity|]. split; [reflexivity|]. split; [done|].
    split; [reflexivity|]. split; [reflexivity|].
    simpl. rewrite length_insert. split; [reflexivity|].
    rewrite length_app, length_insert. simpl. lia.
Qed.

(** C2 (amended): when no issue is open, a customer message starts an
    issue, with itself as the only message, exactly when its intent is
    issue report; with any other intent no issue is created. *)
Theorem C2_only_report_starts_issue msgs st msg :
  process_all lower initial_state msgs = Some st →
  (∀ c cur, current_issue st = Some c → issues st !! c = Some cur →
            status cur ≠ open) →
  sender_type msg = customer →
  (message_type msg = issue_report →
     ∃ st', process_message lower st msg = Some (StartOnReport, st') ∧
            issues st' = issues st ++ [new_issue lower (issue_counter st) msg] ∧
            current_issue st' = Some (length (issues st)) ∧
            messages (new_issue lower (issue_counter st) msg) = [msg] ∧
            status (new_issue lower (issue_counter st) msg) = open) ∧
  (message_type msg ≠ issue_report →
     ∃ b st', process_message lower st msg = Some (b, st') ∧
              length (issues st') = length (issues st) ∧
              (current_issue st = None → b = SkippedNoIssue ∧ st' = st)).
Proof.
  intros Hrun Hclosed Hcust.
  pose proof (reachable_inv lower _ _ Hrun) as Hinv.
  destruct (process_message_inv lower st msg Hinv) as (b & st' & Hstep & _).
  split.
  - intros Hr. clear Hstep. unfold process_message.
    unfold is_customer. rewrite !bool_decide_eq_true_2 by done. simpl.
    destruct Hinv as [Hall Hcur].
    destruct (current_issue st) as [c|] eqn:Ec.
    + destruct Hcur as (Hlen & cur & Hlk & _). rewrite Hlk. simpl.
      destruct (close_pending_spec cur) as (cur' & -> & _ & _ & _ & _ & _ & _ & Hsame).
      { eapply Forall_lookup_1; eauto. }
      rewrite (Hsame (Hclosed _ _ eq_refl Hlk)). simpl.
      eexists. split; [done|]. unfold start_issue. simpl.
      rewrite list_insert_id by done. done.
    + simpl. eexists. split; [done|]. done.
  - intros Hnr. exists b, st'. split; [done|].
    pose proof (process_message_branch lower _ _ _ _ Hstep) as Hb.
    destruct b; try done.
    + destruct Hb as (_ & ? & _). done.
    + destruct Hb as (_ & [c Hc] & _ & Hlen). split; [done|]. by rewrite Hc.
    + destruct Hb as ([c Hc] & -> & _). split; [done|]. by rewrite Hc.
    + destruct Hb as (_ & -> & _). done.
Qed.

(** C5: the first response time of a stored issue is the time from the
    start of the issue to its first message of the support side with
    intent acknowledgment, response or request for information, and is
    unset when there is no such message; once set it keeps its value
    through every later message and through the closing pass. *)
Theorem C5_first_response_set_once msgs st i iss :
  process_all lower initial_state msgs = Some st →
  issues st !! i = Some iss →
  first_response_time iss =
    (fun m => timestamp m - start_time iss) <$> find responds (messages iss) ∧
  ∀ more st', process_all lower st more = Some st' →
    ∃ iss', issues st' !! i = Some iss' ∧
            (is_Some (first_response_time iss) →
             first_response_time iss' = first_response_time iss) ∧
            ∃ l f, finalize (issues st') = Some l ∧ l !! i = Some f ∧
                   first_response_time f = first_response_time iss'.
Proof.
  intros Hrun Hi.
  pose proof (reachable_inv lower _ _ Hrun) as Hinv.
  split.
  - destruct Hinv as [Hall _]. by apply (Forall_lookup_1 _ _ _ _ Hall Hi).
  - intros more st' Hmore.
    destruct (process_all_related lower
                (fun a b => is_Some (first_response_time a) →
                            first_response_time b = first_response_time a)
                (fun _ => True)) with (more := more) (st := st) (st' := st')
                                      (i := i) (iss := iss)
      as (iss' & Hi' & Hkeep); try done.
    { intros x y z Hxy Hyz Hx. rewrite <- (Hxy Hx). apply Hyz. by rewrite (Hxy Hx). }
    { intros msg x _ _ _ [d Hd]. by rewrite append_message_first_response_time, Hd. }
    { intros x y Hcl _. unfold close_pending in Hcl.
      destruct (decide (status x = open)); [|by simplify_eq].
      destruct (last_timestamp x); simpl in Hcl; by simplify_eq. }
    { by apply Forall_true. }
    exists iss'. split; [done|]. split; [done|].
    assert (Hinv' : state_inv st').
    { destruct (process_all_inv lower more st Hinv) as (? & ? & ?). congruence. }
    destruct (finalize_is_Some (issues st')) as [l Hl]; [apply Hinv'|].
    destruct (finalize_lookup _ _ _ _ Hl Hi') as (f & Hf & Hfin).
    exists l, f. split; [done|]. split; [done|].
    by destruct (finalize_issue_closed _ _ Hfin) as (_ & _ & -> & _).
Qed.

(** C6: the status of a stored issue never changes once it is not open;
    an issue enters the list open; the closing pass leaves no issue open
    and changes no status other than open. *)
Theorem C6_status_only_forward msgs st more st' :
  process_all lower initial_state msgs = Some st →
  process_all lower st more = Some st' →
  (∀ i iss, issues st !! i = Some iss →
     ∃ iss', issues st' !! i = Some iss' ∧
             (status iss ≠ open → status iss' = status iss)) ∧
  (∀ msg b st'' i new,
     process_message lower st' msg = Some (b, st'') →
     issues st' !! i = None → issues st'' !! i = Some new →
     status new = open) ∧
  (∃ l, finalize (issues st') = Some l ∧
     ∀ i iss', issues st' !! i = Some iss' →
       ∃ f, l !! i = Some f ∧ status f ≠ open ∧
            (status iss' ≠ open → status f = status iss')).
Proof.
  intros Hrun Hmore.
  pose proof (reachable_inv lower _ _ Hrun) as Hinv.
  split; [|split].
  - intros i iss Hi.
    apply (process_all_related lower
             (fun a b => status a ≠ open → status b = status a)
             (fun _ => True)) with (more := more) (st := st); try done.
    + intros x y z Hxy Hyz Hx. rewrite <- (Hxy Hx). apply Hyz. by rewrite (Hxy Hx).
    + intros msg x _ [Ho|Hr] _ Hx; [done|].
      rewrite append_message_status, Hr. by destruct (resolves msg).
    + intros x y Hcl Hx. unfold close_pending in Hcl.
      destruct (decide (status x = open)); [done | by simplify_eq].
    + by apply Forall_true.
  - intros msg b st'' i new Hstep Hnone Hnew.
    by rewrite (process_message_new lower _ _ _ _ _ _ Hstep Hnone Hnew).
  - assert (Hinv' : state_inv st').
    { destruct (process_all_inv lower more st Hinv) as (? & ? & ?). congruence. }
    destruct (finalize_is_Some (issues st')) as [l Hl]; [apply Hinv'|].
    exists l. split; [done|]. intros i iss' Hi.
    destruct (finalize_lookup _ _ _ _ Hl Hi) as (f & Hf & Hfin).
    exists f. split; [done|].
    destruct (finalize_issue_closed _ _ Hfin) as (? & Hsame & _).
    split; [done|]. intros Hno. by rewrite (Hsame Hno).
Qed.

(** C10: the arm that closes the current issue as pending and starts a
    new one after a failed continuation test is never taken.  A customer
    issue report always goes through the first arm, a customer follow-up
    or general message always passes the continuation test when there is
    a current issue, and the list of issues only grows through the first
    arm. *)
Theorem C10_break_arm_unreachable st msg b st' :
  process_message lower st msg = Some (b, st') →
  b ≠ StartOnBreak ∧
  (sender_type msg = customer → message_type msg = issue_report →
     b = StartOnReport) ∧
  (sender_type msg = customer → message_type msg ∈ [follow_up; general] →
     b = Appended ∨ b = SkippedNoIssue) ∧
  ((length (issues st) < length (issues st'))%nat → b = StartOnReport).
Proof.
  intros Hstep. pose proof (process_message_branch lower _ _ _ _ Hstep) as Hb.
  destruct b; try done.
  - repeat split; try done.
    intros _ Hin. destruct Hb as (_ & Hr & _). rewrite Hr in Hin. set_solver.
  - destruct Hb as (Hnot & _ & _ & Hlen).
    repeat split; try done; [tauto | auto | lia].
  - destruct Hb as (_ & -> & Hnot).
    repeat split; try done; [| | lia].
    + intros Hc Hr. destruct Hnot. split; [done|]. rewrite Hr. set_solver.
    + intros Hc Hin. destruct Hnot. split; [done|]. set_solver.
  - destruct Hb as (_ & -> & Hnot).
    repeat split; try done; [tauto | auto | lia].
Qed.

End SegmentationClaims.

(** ** The properties on the small transcript *)

(** The whole pipeline on a transcript of five messages: the message of
    the unlisted sender gets the intent other, and everything after the
    report lands in the one issue, which ends resolved. *)
Lemma transcript_one_resolved_issue :
  let msgs := chat [ said 0 huda (u "Port 5 is Down, ticket 9563926");
                     said (minutes 3) omar (u "checking");
                     said (minutes 40) omar (u "done, fixed");
                     said (minutes 41) huda (u "good morning");
                     said (minutes 41) (u "Farouk") (u "hello") ] in
  message_type <$> msgs
    = [issue_report; acknowledgment; resolution; general; other] ∧
  (fun l : list Issue =>
     (fun i => (status i, first_response_time i, resolution_time i,
                ticket_ids i, category i, length (messages i))) <$> l)
    <$> group_into_issues ascii_lower msgs
    = Some [(resolved, Some (minutes 3), Some (minutes 40),
             [u "9563926"], port_down, 5%nat)].
Proof. split; reflexivity. Qed.

Lemma one_open_issue_reached :
  process_all ascii_lower initial_state [port5_report] = Some one_open_issue.
Proof. reflexivity. Qed.

(** C1 as stated fails: a customer issue report five minutes after the
    last message of the open issue satisfies the continuation rule, and
    starts a second issue instead of being appended. *)
Lemma C1_counterexample :
  ∃ cur st',
    process_all ascii_lower initial_state [port5_report] = Some one_open_issue ∧
    current_issue one_open_issue = Some 0%nat ∧
    issues one_open_issue !! 0%nat = Some cur ∧
    status cur = open ∧
    spec_continuation cur port7_report ∧
    process_message ascii_lower one_open_issue port7_report
      = Some (StartOnReport, st') ∧
    messages <$> issues st' = [[port5_report]; [port7_report]].
Proof.
  eexists _, _. repeat split; try reflexivity.
  left. eexists. split; [reflexivity|]. vm_compute. discriminate.
Qed.

Lemma C1_witness :
  (∃ st', process_message ascii_lower one_open_issue checking_reply
            = Some (Appended, st') ∧
          issues st' = <[0%nat := append_message checking_reply
                                    (new_issue ascii_lower 1 port5_report)]>
                         (issues one_open_issue) ∧
          messages (append_message checking_reply (new_issue ascii_lower 1 port5_report))
            = messages (new_issue ascii_lower 1 port5_report) ++ [checking_reply] ∧
          current_issue st' = Some 0%nat ∧
          length (issues st') = length (issues one_open_issue)) ∧
  (∃ st' cur', process_message ascii_lower one_open_issue port7_report
            = Some (StartOnReport, st') ∧
          close_pending (new_issue ascii_lower 1 port5_report) = Some cur' ∧
          messages cur' = messages (new_issue ascii_lower 1 port5_report) ∧
          issues st' = <[0%nat := cur']> (issues one_open_issue)
                         ++ [new_issue ascii_lower (issue_counter one_open_issue)
                               port7_report] ∧
          messages (new_issue ascii_lower (issue_counter one_open_issue) port7_report)
            = [port7_report] ∧
          current_issue st' = Some (length (issues one_open_issue)) ∧
          length (issues st') = S (length (issues one_open_issue))).
Proof.
  split.
  - apply (C1_continuation_appends ascii_lower [port5_report] one_open_issue 0%nat
             (new_issue ascii_lower 1 port5_report) checking_reply);
      [reflexivity | reflexivity | reflexivity | |].
    + vm_compute. intros [_ H]. discriminate H.
    + left. eexists. split; [reflexivity|]. vm_compute. discriminate.
  - apply (C1_continuation_appends ascii_lower [port5_report] one_open_issue 0%nat
             (new_issue ascii_lower 1 port5_report) port7_report);
      reflexivity.
Defined.

(** C2 as stated fails: a customer greeting that arrives before any issue
    exists is skipped, and the run ends without an issue. *)
Lemma C2_counterexample :
  sender_type greeting = customer ∧
  message_type greeting = general ∧
  current_issue initial_state = None ∧
  process_message ascii_lower initial_state greeting
    = Some (SkippedNoIssue, initial_state) ∧
  group_into_issues ascii_lower [greeting] = Some [].
Proof. repeat split. Qed.

Lemma C2_witness :
  (message_type port5_report = issue_report →
     ∃ st', process_message ascii_lower initial_state port5_report
              = Some (StartOnReport, st') ∧
            issues st' = issues initial_state ++ [new_issue ascii_lower 1 port5_report] ∧
            current_issue st' = Some (length (issues initial_state)) ∧
            messages (new_issue ascii_lower 1 port5_report) = [port5_report] ∧
            status (new_issue ascii_lower 1 port5_report) = open) ∧
  (message_type port5_report ≠ issue_report →
     ∃ b st', process_message ascii_lower initial_state port5_report = Some (b, st') ∧
              length (issues st') = length (issues initial_state) ∧
              (current_issue initial_state = None →
               b = SkippedNoIssue ∧ st' = initial_state)).
Proof.
  apply (C2_only_report_starts_issue ascii_lower []).
  - reflexivity.
  - intros c cur H. discriminate H.
  - reflexivity.
Defined.

Lemma one_answered_issue_reached :
  process_all ascii_lower one_open_issue [checking_reply] = Some one_answered_issue.
Proof. reflexivity. Qed.


(** C4: the reply of the support staff carries the timestamp of the report
    (the export has the resolution of a minute), so the first response
    time is set, to the zero duration; the closing pass reads it as false
    and closes the issue as unanswered. *)
Theorem C4_zero_latency_closed_as_no_response :
  ∃ st cur iss,
    process_all ascii_lower initial_state [port5_report; same_minute_reply] = Some st ∧
    issues st = [cur] ∧
    status cur = open ∧
    first_response cur = Some same_minute_reply ∧
    first_response_time cur = Some 0 ∧
    group_into_issues ascii_lower [port5_report; same_minute_reply] = Some [iss] ∧
    first_response_time iss = Some 0 ∧
    end_time iss = Some 0 ∧
    status iss = no_response.
Proof. eexists _, _, _. repeat split; reflexivity. Qed.

Lemma C5_witness :
  first_response_time answered_issue =
    (fun m => timestamp m - start_time answered_issue)
      <$> find responds (messages answered_issue) ∧
  ∀ more st', process_all ascii_lower one_answered_issue more = Some st' →
    ∃ iss', issues st' !! 0%nat = Some iss' ∧
            (is_Some (first_response_time answered_issue) →
             first_response_time iss' = first_response_time answered_issue) ∧
            ∃ l f, finalize (issues st') = Some l ∧ l !! 0%nat = Some f ∧
                   first_response_time f = first_response_time iss'.
Proof.
  apply (C5_first_response_set_once ascii_lower [port5_report; checking_reply]).
  - reflexivity.
  - reflexivity.
Defined.

Lemma C6_witness :
  (∀ i iss, issues one_open_issue !! i = Some iss →
     ∃ iss', issues one_answered_issue !! i = Some iss' ∧
             (status iss ≠ open → status iss' = status iss)) ∧
  (∀ msg b st'' i new,
     process_message ascii_lower one_answered_issue msg = Some (b, st'') →
     issues one_answered_issue !! i = None → issues st'' !! i = Some new →
     status new = open) ∧
  (∃ l, finalize (issues one_answered_issue) = Some l ∧
     ∀ i iss', issues one_answered_issue !! i = Some iss' →
       ∃ f, l !! i = Some f ∧ status f ≠ open ∧
            (status iss' ≠ open → status f = status iss')).
Proof.
  apply (C6_status_only_forward ascii_lower [port5_report] one_open_issue
           [checking_reply] one_answered_issue).
  - reflexivity.
  - reflexivity.
Defined.

(** With the issue of [port5_report] open, a reply of the support staff
    121 minutes later fails the continuation test and is skipped, and a
    customer greeting at the same time passes it and is appended. *)
Lemma C10_witness :
  (SkippedOnBreak ≠ StartOnBreak ∧
   (sender_type late_reply = customer → message_type late_reply = issue_report →
      SkippedOnBreak = StartOnReport) ∧
   (sender_type late_reply = customer →
    message_type late_reply ∈ [follow_up; general] →
      SkippedOnBreak = Appended ∨ SkippedOnBreak = SkippedNoIssue) ∧
   ((length (issues one_open_issue) < length (issues one_open_issue))%nat →
      SkippedOnBreak = StartOnReport)) ∧
  belongs_to_issue (new_issue ascii_lower 1 port5_report) late_reply = Some false ∧
  ∃ st', process_message ascii_lower one_open_issue late_greeting = Some (Appended, st') ∧
    Appended ≠ StartOnBreak ∧
    (sender_type late_greeting = customer → message_type late_greeting = issue_report →
       Appended = StartOnReport) ∧
    (sender_type late_greeting = customer →
     message_type late_greeting ∈ [follow_up; general] →
       Appended = Appended ∨ Appended = SkippedNoIssue) ∧
    ((length (issues one_open_issue) < length (issues st'))%nat →
       Appended = StartOnReport).
Proof.
  split; [|split; [reflexivity|]].
  - apply (C10_break_arm_unreachable ascii_lower one_open_issue late_reply
             SkippedOnBreak one_open_issue).
    reflexivity.
  - eexists. split; [reflexivity|].
    eapply (C10_break_arm_unreachable ascii_lower one_open_issue late_greeting Appended).
    reflexivity.
Defined.

(** ** The message intent classifier *)

(** C9 (amended): the classifier returns a value for every role and
    every body; a customer message gets issue report, follow-up or
    general, a message of the support side gets resolution,
    acknowledgment, request for information or response, any other role
    gets the intent other; a customer message that mentions a ticket is
    an issue report whatever its body says; and when no keyword group
    matches, the result is general for a customer message that mentions
    no ticket and response for the support side. *)
Theorem C9_classifier_role_gated (lower : str -> str) (text : str) (has_ticket : bool) :
  _classify_message_type lower customer text has_ticket
    ∈ [issue_report; follow_up; general] ∧
  _classify_message_type lower support text has_ticket
    ∈ [resolution; acknowledgment; request_info; response] ∧
  _classify_message_type lower unknown text has_ticket = other ∧
  (any_in issue_indicators (lower text) = false →
   has_ticket = false →
   _contains_keywords text patterns_follow_up = false →
   _classify_message_type lower customer text has_ticket = general) ∧
  (any_in resolution_indicators (lower text) = false →
   _contains_keywords text patterns_acknowledgment = false →
   _contains_keywords text patterns_request_action = false →
   _classify_message_type lower support text has_ticket = response) ∧
  (has_ticket = true →
   _classify_message_type lower customer text has_ticket = issue_report).
Proof.
  unfold _classify_message_type. repeat split.
  - repeat case_match; set_solver.
  - repeat case_match; set_solver.
  - by intros -> -> ->.
  - by intros -> -> ->.
  - intros ->. by destruct (any_in issue_indicators (lower text)).
Qed.

Lemma C9_witness :
  _classify_message_type ascii_lower customer (u "good morning") false = general ∧
  _classify_message_type ascii_lower support (u "on my way") false = response ∧
  _classify_message_type ascii_lower customer (u "9563926 please") true = issue_report.
Proof.
  split; [|split].
  - apply (C9_classifier_role_gated ascii_lower (u "good morning") false); reflexivity.
  - apply (C9_classifier_role_gated ascii_lower (u "on my way") false); reflexivity.
  - apply (C9_classifier_role_gated ascii_lower (u "9563926 please") true). reflexivity.
Defined.

(** ** Rates of the KPI aggregator *)

Section RateBounds.

(** The rounding of a real number to a [float] is monotone and leaves the
    numbers 0, 1 and 100 as they are. *)
Variable fl : Q -> Q.
Hypothesis fl_monotone : ∀ x y : Q, (x <= y)%Q → (fl x <= fl y)%Q.
Hypothesis fl_0 : (fl 0 == 0)%Q.
Hypothesis fl_1 : (fl 1 == 1)%Q.
Hypothesis fl_100 : (fl 100 == 100)%Q.

Lemma fl_between (lo hi x : Q) :
  (fl lo == lo)%Q → (fl hi == hi)%Q →
  (lo <= x <= hi)%Q → (lo <= fl x <= hi)%Q.
Proof.
  intros Hlo Hhi [H1 H2]. split.
  - rewrite <- Hlo. by apply fl_monotone.
  - rewrite <- Hhi. by apply fl_monotone.
Qed.

Lemma rate_bounds (num den : nat) :
  (num ≤ den)%nat → (0 <= rate fl num den <= 100)%Q.
Proof.
  intros Hle. unfold rate.
  destruct (decide (0 < den)%nat) as [Hpos|_]; [|split; discriminate].
  apply fl_between; [done | done |].
  assert (Hden : (0 < inject_Z (Z.of_nat den))%Q).
  { rewrite <- (Zlt_Qlt 0). lia. }
  assert (Hq : (0 <= fl (inject_Z (Z.of_nat num) / inject_Z (Z.of_nat den)) <= 1)%Q).
  { apply fl_between; [done | done |]. split.
    - apply Qle_shift_div_l; [done|]. rewrite Qmult_0_l.
      rewrite <- (Zle_Qle 0). lia.
    - apply Qle_shift_div_r; [done|]. rewrite Qmult_1_l.
      rewrite <- Zle_Qle. lia. }
  destruct Hq as [Hq0 Hq1]. split.
  - apply Qmult_le_0_compat; [done | discriminate].
  - apply Qle_trans with (1 * 100)%Q; [|discriminate].
    apply Qmult_le_compat_r; [done | discriminate].
Qed.

Lemma length_response_times (l : list Issue) :
  (length (response_times l) ≤ length l)%nat.
Proof.
  unfold response_times. induction l as [|i l IH]; [done|].
  change (i :: l) with ([i] ++ l). rewrite omap_app, !length_app.
  apply Nat.add_le_mono; [|done]. simpl.
  destruct (truthy _); [destruct (first_response_time i)|]; simpl; lia.
Qed.

(** C7 (amended): on an empty list of issues the aggregator returns the
    error record and computes no rate; on a list with at least one issue
    both rates lie between 0 and 100. *)
Theorem C7_rates_bounded (l : list Issue) :
  match calculate_kpis fl l with
  | KpiError message => l = [] ∧ message = "No issues found"%string
  | KpiValues k =>
      l ≠ [] ∧
      (0 <= resolution_rate k <= 100)%Q ∧
      (0 <= response_rate k <= 100)%Q
  end.
Proof.
  destruct l as [|i l]; simpl; [done|].
  split; [done|]. split.
  - apply rate_bounds. apply (length_filter _ (i :: l)).
  - apply rate_bounds. apply (length_response_times (i :: l)).
Qed.

End RateBounds.

(** C7 as stated fails: on the empty list there is no rate to be zero. *)
Lemma C7_counterexample :
  calculate_kpis (fun q => q) [] = KpiError "No issues found" ∧
  ¬ ∃ k, calculate_kpis (fun q => q) [] = KpiValues k ∧
         (resolution_rate k == 0)%Q ∧ (response_rate k == 0)%Q.
Proof. split; [reflexivity|]. intros (k & H & _). discriminate H. Qed.

Lemma C7_witness :
  match calculate_kpis (fun q => q) [answered_issue] with
  | KpiError message => [answered_issue] = [] ∧ message = "No issues found"%string
  | KpiValues k =>
      [answered_issue] ≠ [] ∧
      (0 <= resolution_rate k <= 100)%Q ∧
      (0 <= response_rate k <= 100)%Q
  end.
Proof.
  apply (C7_rates_bounded (fun q => q)).
  - intros x y H. exact H.
  - reflexivity.
  - reflexivity.
  - reflexivity.
Defined.

(** ** Ticket references *)

Section TicketFacts.

Variable isdecimal : N -> bool.
Variable isalnum : N -> bool.

(** Every decimal digit is alphanumeric, hence a word character. *)
Hypothesis decimal_isalnum : ∀ c, isdecimal c = true → isalnum c = true.

#[local] Abbreviation digit := (digit_at isdecimal).
#[local] Abbreviation word := (word_at isalnum).
#[local] Abbreviation ticket_at := (word_bounded_at isdecimal isalnum).

Lemma digit_is_word s i : digit s i = true → word s i = true.
Proof.
  unfold digit_at, word_at, is_word.
  destruct (s !! i) as [c|]; simpl; [|done].
  intros H. by rewrite (decimal_isalnum c H).
Qed.

Lemma seven_digits_at_true s i :
  seven_digits_at isdecimal s i = true ↔ ∀ k, (k < 7)%nat → digit s (i + k) = true.
Proof.
  unfold seven_digits_at. rewrite forallb_forall. split.
  - intros H k Hk. apply H, in_seq. lia.
  - intros H k [_ Hk]%in_seq. apply H. lia.
Qed.

(** At a position the pattern matches exactly a word-bounded run. *)
Lemma match_here_ticket s i :
  match_here isdecimal isalnum ticket_pattern s i =
  if ticket_at s i then Some (i + 7)%nat else None.
Proof.
  unfold word_bounded_at, seven_digits_at, ticket_pattern, at_boundary. simpl.
  rewrite Nat.add_0_r, !Nat.add_succ_r, Nat.add_0_r. simpl.
  destruct (digit s i) eqn:D0; simpl; [|by destruct (at_boundary _ _ _)].
  do 5 (match goal with
        | |- context [if digit s ?j then _ else None] =>
            destruct (digit s j); simpl; [|by destruct (at_boundary _ _ _)]
        end).
  destruct (digit s (S (S (S (S (S (S i))))))) eqn:D6; simpl;
    [|by destruct (at_boundary _ _ _)].
  unfold at_boundary. cbn [word_before].
  rewrite (digit_is_word _ _ D0), (digit_is_word _ _ D6).
  by destruct (word_before isalnum s i), (word s _).
Qed.

Lemma ticket_at_fits s i : ticket_at s i = true → (i + 7 ≤ length s)%nat.
Proof.
  unfold word_bounded_at. rewrite !andb_true_iff. intros [[H _] _].
  rewrite seven_digits_at_true in H. specialize (H 6%nat ltac:(lia)).
  unfold digit_at in H. destruct (s !! (i + 6)%nat) eqn:E; [|done].
  apply lookup_lt_Some in E. lia.
Qed.

(** No second run starts inside a run. *)
Lemma ticket_at_apart s i k :
  ticket_at s i = true → (1 ≤ k ≤ 6)%nat → ticket_at s (i + k) = false.
Proof.
  unfold word_bounded_at. rewrite !andb_true_iff. intros [[H _] _] Hk.
  rewrite seven_digits_at_true in H. specialize (H (k - 1)%nat ltac:(lia)).
  apply digit_is_word in H.
  replace (i + k)%nat with (S (i + (k - 1))) by lia. simpl. rewrite H. simpl.
  by rewrite andb_false_r.
Qed.

Lemma filter_ticket_at_inside s i :
  ticket_at s i = true →
  filter (fun j => ticket_at s j = true) (seq (S i) 6) = [].
Proof.
  intros H. simpl.
  rewrite !filter_cons_False, filter_nil; [done|..];
    rewrite not_true_iff_false.
  - replace (S (S (S (S (S (S i)))))) with (i + 6)%nat by lia. apply ticket_at_apart; [done|lia].
  - replace (S (S (S (S (S i))))) with (i + 5)%nat by lia. apply ticket_at_apart; [done|lia].
  - replace (S (S (S (S i)))) with (i + 4)%nat by lia. apply ticket_at_apart; [done|lia].
  - replace (S (S (S i))) with (i + 3)%nat by lia. apply ticket_at_apart; [done|lia].
  - replace (S (S i)) with (i + 2)%nat by lia. apply ticket_at_apart; [done|lia].
  - replace (S i) with (i + 1)%nat by lia. apply ticket_at_apart; [done|lia].
Qed.

Lemma search_ticket_pattern s fuel : ∀ i,
  (S (length s) - i ≤ fuel)%nat →
  search isdecimal isalnum fuel ticket_pattern s i =
  (fun j => take 7 (drop j s))
    <$> filter (fun j => ticket_at s j = true) (seq i (S (length s) - i)).
Proof.
  induction fuel as [|fuel IH]; intros i Hfuel.
  - by replace (S (length s) - i)%nat with 0%nat by lia.
  - cbn [search]. destruct (decide (length s < i)%nat) as [Hout|Hin].
    { by replace (S (length s) - i)%nat with 0%nat by lia. }
    replace (S (length s) - i)%nat with (S (length s - i)) by lia.
    cbn [seq]. rewrite match_here_ticket.
    destruct (ticket_at s i) eqn:Hi.
    + pose proof (ticket_at_fits _ _ Hi) as Hfit.
      rewrite filter_cons_True by done. rewrite fmap_cons.
      replace (i + 7 - i)%nat with 7%nat by lia.
      destruct (decide (i + 7 = i)%nat); [lia|]. f_equal.
      rewrite IH by lia.
      replace (length s - i)%nat with (6 + (S (length s) - (i + 7)))%nat by lia.
      rewrite seq_app, filter_app, filter_ticket_at_inside by done.
      simpl. do 3 f_equal; lia.
    + rewrite filter_cons_False by (by rewrite Hi).
      rewrite IH by lia. do 3 f_equal; lia.
Qed.

(** C8 (amended): the ticket references extracted from a body are exactly
    the runs of seven decimal digits that have no word character (letter,
    digit or underscore) next to them on either side, from left to
    right. *)
Theorem C8_ticket_ids_word_bounded (message : str) :
  extract_ticket_ids isdecimal isalnum message =
  word_bounded_runs isdecimal isalnum message.
Proof.
  unfold extract_ticket_ids, findall, word_bounded_runs, runs_where.
  rewrite search_ticket_pattern by lia. by rewrite Nat.sub_0_r.
Qed.

End TicketFacts.

(** C8 as stated fails: the seven digits after a letter are bounded by
    non-digit characters and are not extracted. *)
Lemma C8_counterexample :
  digit_bounded_runs ascii_isdecimal (u "ref a1234567 and 7654321b")
    = [u "1234567"; u "7654321"] ∧
  extract_ticket_ids ascii_isdecimal ascii_isalnum (u "ref a1234567 and 7654321b")
    = [].
Proof. split; reflexivity. Qed.

Lemma C8_witness :
  extract_ticket_ids ascii_isdecimal ascii_isalnum (u "ticket 9563926, a1234567")
    = [u "9563926"] ∧
  word_bounded_runs ascii_isdecimal ascii_isalnum (u "ticket 9563926, a1234567")
    = [u "9563926"].
Proof.
  assert (H : ∀ c, ascii_isdecimal c = true → ascii_isalnum c = true).
  { intros c Hc. unfold ascii_isalnum. by rewrite Hc. }
  split; [|reflexivity].
  rewrite (C8_ticket_ids_word_bounded ascii_isdecimal ascii_isalnum H).
  reflexivity.
Defined.


(** * Further properties of the segmentation engine *)

Lemma append_message_ticket_ids msg cur tid :
  tid ∈ ticket_ids (append_message msg cur) ↔
  tid ∈ ticket_ids cur ∨ tid ∈ msg_ticket_ids msg.
Proof.
  assert (Hfold : ∀ new acc,
            tid ∈ foldl (fun acc t => if bool_decide (t ∈ acc) then acc else acc ++ [t])
                    acc new ↔ tid ∈ acc ∨ tid ∈ new).
  { induction new as [|t new IH]; intros acc; simpl; [set_solver|].
    rewrite IH. case_bool_decide; set_solver. }
  unfold append_message, add_ticket_ids. simpl. rewrite Hfold.
  unfold track_support. destruct (is_support msg); simpl; [|done].
  repeat (case_match; simpl); done.
Qed.

Lemma append_message_support_participants msg cur who :
  who ∈ support_participants (append_message msg cur) ↔
  who ∈ support_participants cur ∨ (sender_type msg = support ∧ sender msg = who).
Proof.
  unfold append_message, add_ticket_ids, track_support, is_support. simpl.
  case_bool_decide as Hs; simpl.
  - repeat (case_match; simpl); set_solver.
  - set_solver.
Qed.

Lemma append_message_total_responses msg cur :
  total_responses (append_message msg cur) =
  (total_responses cur + (if responds msg then 1 else 0))%nat.
Proof.
  unfold append_message, add_ticket_ids, track_support, responds, type_in.
  destruct (is_support msg); simpl; [|lia].
  assert (Hsame : bool_decide (message_type msg ∈ [response; acknowledgment; request_info])
                  = bool_decide (message_type msg ∈ [acknowledgment; response; request_info])).
  { apply bool_decide_ext. set_solver. }
  rewrite Hsame.
  destruct (bool_decide (message_type msg ∈ [acknowledgment; response; request_info]));
    repeat (case_match; simpl); lia.
Qed.

Lemma append_message_reporter msg cur :
  reporter (append_message msg cur) = reporter cur ∧
  initial_message (append_message msg cur) = initial_message cur ∧
  issue_id (append_message msg cur) = issue_id cur ∧
  category (append_message msg cur) = category cur.
Proof. append_fields. Qed.

Lemma close_pending_fields cur cur' :
  close_pending cur = Some cur' →
  messages cur' = messages cur ∧ ticket_ids cur' = ticket_ids cur ∧
  support_participants cur' = support_participants cur ∧
  total_responses cur' = total_responses cur ∧
  reporter cur' = reporter cur ∧ initial_message cur' = initial_message cur ∧
  start_time cur' = start_time cur ∧ issue_id cur' = issue_id cur ∧
  category cur' = category cur ∧
  first_response_time cur' = first_response_time cur ∧
  resolution_time cur' = resolution_time cur.
Proof.
  unfold close_pending. intros H.
  destruct (decide (status cur = open)); [|by simplify_eq].
  destruct (last_timestamp cur); simpl in H; by simplify_eq.
Qed.

Lemma finalize_issue_fields cur f :
  finalize_issue cur = Some f →
  messages f = messages cur ∧ ticket_ids f = ticket_ids cur ∧
  support_participants f = support_participants cur ∧
  total_responses f = total_responses cur ∧
  reporter f = reporter cur ∧ initial_message f = initial_message cur ∧
  start_time f = start_time cur ∧ issue_id f = issue_id cur ∧
  category f = category cur ∧
  first_response_time f = first_response_time cur ∧
  resolution_time f = resolution_time cur.
Proof.
  unfold finalize_issue. intros H.
  destruct (decide (status cur = open)); [|by simplify_eq].
  destruct (last_timestamp cur); simpl in H; by simplify_eq.
Qed.

Section SegmentationFurther.

Variable lower : str -> str.

(** A property of stored issues carried over one iteration. *)
Lemma process_message_Forall (P Q : Issue → Prop) st msg b st' :
  process_message lower st msg = Some (b, st') →
  Forall P (issues st) →
  (∀ iss, P iss → Q iss) →
  (∀ iss, P iss → Q (append_message msg iss)) →
  (∀ iss iss', P iss → close_pending iss = Some iss' → Q iss') →
  (customer_report msg = true → Q (new_issue lower (issue_counter st) msg)) →
  Forall Q (issues st').
Proof.
  intros Hstep HP Hsame Happ Hclose Hnew.
  apply Forall_lookup_2. intros i x Hx.
  destruct (issues st !! i) as [iss|] eqn:Hi.
  - pose proof (Forall_lookup_1 _ _ _ _ HP Hi) as HPi.
    destruct (process_message_issue lower _ _ _ _ _ _ Hstep Hi) as (iss' & Hi' & Hcase).
    simplify_eq.
    destruct Hcase as [[-> _]|[(_ & _ & ->)|(_ & _ & Hcl)]]; eauto.
  - rewrite (process_message_new lower _ _ _ _ _ _ Hstep Hi Hx). apply Hnew.
    apply lookup_ge_None in Hi. apply lookup_lt_Some in Hx.
    pose proof (process_message_branch lower _ _ _ _ Hstep) as Hb.
    unfold customer_report, is_customer.
    destruct b; try done.
    + destruct Hb as (Hc & Hr & _). by rewrite !bool_decide_eq_true_2.
    + destruct Hb as (_ & _ & _ & ?). lia.
    + destruct Hb as (_ & -> & _). lia.
    + destruct Hb as (_ & -> & _). lia.
Qed.

Lemma process_all_Forall (P : Issue → Prop) :
  (∀ n msg, customer_report msg = true → P (new_issue lower n msg)) →
  (∀ msg iss, P iss → P (append_message msg iss)) →
  (∀ iss iss', P iss → close_pending iss = Some iss' → P iss') →
  ∀ msgs st st',
    Forall P (issues st) → process_all lower st msgs = Some st' →
    Forall P (issues st').
Proof.
  intros Hnew Happ Hclose.
  induction msgs as [|msg rest IH]; intros st st' HP Hrun; simpl in Hrun.
  - by simplify_eq.
  - destruct (process_message lower st msg) as [[b st1]|] eqn:Hstep; [|done].
    simpl in Hrun. apply (IH st1); [|done].
    eapply process_message_Forall; eauto.
Qed.

(** A property of issues that holds of every issue the engine returns. *)
Lemma group_into_issues_Forall (P : Issue → Prop) :
  (∀ n msg, customer_report msg = true → P (new_issue lower n msg)) →
  (∀ msg iss, P iss → P (append_message msg iss)) →
  (∀ iss iss', P iss → close_pending iss = Some iss' → P iss') →
  (∀ iss f, P iss → finalize_issue iss = Some f → P f) →
  ∀ msgs, ∃ l, group_into_issues lower msgs = Some l ∧ Forall P l.
Proof.
  intros Hnew Happ Hclose Hfin msgs.
  destruct (group_into_issues_is_Some lower msgs) as [l Hl].
  exists l. split; [done|].
  unfold group_into_issues in Hl.
  destruct (process_all lower initial_state msgs) as [st|] eqn:Hrun; [|done].
  simpl in Hl.
  assert (HP : Forall P (issues st)).
  { eapply process_all_Forall; eauto. constructor. }
  apply Forall_lookup_2. intros i f Hf.
  unfold finalize in Hl. apply mapM_Some in Hl.
  destruct (Forall2_lookup_r _ _ _ _ _ Hl Hf) as (iss & Hi & Hfi).
  eapply Hfin; [|done]. eapply Forall_lookup_1; eauto.
Qed.

(** X1: the ticket references of an issue are those of its messages, and
    no others. *)
Theorem X1_ticket_ids_of_messages (msgs : list Message) :
  ∃ l, group_into_issues lower msgs = Some l ∧ Forall tickets_ok l.
Proof.
  apply group_into_issues_Forall.
  - intros n msg _ tid. simpl. set_solver.
  - intros msg iss H tid.
    rewrite append_message_ticket_ids, append_message_messages, (H tid).
    set_solver.
  - intros iss iss' H (Hm & Ht & _)%close_pending_fields tid.
    rewrite Hm, Ht. apply H.
  - intros iss f H (Hm & Ht & _)%finalize_issue_fields tid.
    rewrite Hm, Ht. apply H.
Qed.

(** X2: the support participants of an issue are the senders of its
    messages of the support side. *)
Theorem X2_support_participants_of_messages (msgs : list Message) :
  ∃ l, group_into_issues lower msgs = Some l ∧ Forall participants_ok l.
Proof.
  apply group_into_issues_Forall.
  - intros n msg [_ Hc%bool_decide_eq_true]%andb_prop who. simpl.
    split; [set_solver|]. intros (m & ->%list_elem_of_singleton & Hs & _).
    congruence.
  - intros msg iss H who.
    rewrite append_message_support_participants, append_message_messages, (H who).
    set_solver.
  - intros iss iss' H (Hm & _ & Hp & _)%close_pending_fields who.
    rewrite Hm, Hp. apply H.
  - intros iss f H (Hm & _ & Hp & _)%finalize_issue_fields who.
    rewrite Hm, Hp. apply H.
Qed.

(** X3: the response counter of an issue is the number of its messages of
    the support side with intent acknowledgment, response or request for
    information, and the first response time is set exactly when the
    counter is positive. *)
Theorem X3_total_responses_counts (msgs : list Message) :
  ∃ l, group_into_issues lower msgs = Some l ∧ Forall responses_ok l.
Proof.
  apply group_into_issues_Forall.
  - intros n msg [_ Hc%bool_decide_eq_true]%andb_prop. split; simpl.
    + rewrite filter_cons_False, filter_nil; [done|].
      unfold responds, is_support. by rewrite Hc.
    + split; [by intros [? ?] | lia].
  - intros msg iss [Hn Hiff]. split.
    + rewrite append_message_total_responses, append_message_messages, Hn.
      rewrite filter_app, length_app. f_equal.
      destruct (responds msg) eqn:Hr.
      * by rewrite filter_cons_True, filter_nil by done.
      * by rewrite filter_cons_False, filter_nil by (by rewrite Hr).
    + rewrite append_message_total_responses, append_message_first_response_time.
      destruct (first_response_time iss) as [d|] eqn:Hd.
      * assert (0 < total_responses iss)%nat by (apply Hiff; by eexists).
        split; [lia | by eexists].
      * assert (total_responses iss = 0%nat) as ->.
        { destruct (total_responses iss); [done|].
          destruct Hiff as [_ Hiff]. destruct Hiff as [? ?]; [lia | done]. }
        destruct (responds msg); simpl; split; try lia; try by eexists.
        by intros [? ?].
  - intros iss iss' H (Hm & _ & _ & Ht & _ & _ & _ & _ & _ & Hf & _)%close_pending_fields.
    unfold responses_ok. rewrite Hm, Ht, Hf. apply H.
  - intros iss f H (Hm & _ & _ & Ht & _ & _ & _ & _ & _ & Hf & _)%finalize_issue_fields.
    unfold responses_ok. rewrite Hm, Ht, Hf. apply H.
Qed.

(** A creation-time field, or any other reading of an issue that
    appending and closing leave alone, over the whole list of issues. *)
Lemma process_message_fmap {A} (f : Issue → A) st msg b st' :
  state_inv st →
  process_message lower st msg = Some (b, st') →
  (∀ cur, issue_inv cur → f (append_message msg cur) = f cur) →
  (∀ cur cur', close_pending cur = Some cur' → f cur' = f cur) →
  f <$> issues st' =
  (f <$> issues st) ++
    (if customer_report msg then [f (new_issue lower (issue_counter st) msg)] else []).
Proof.
  intros [Hall Hcur] Hstep Happ Hclose.
  pose proof (process_message_branch lower _ _ _ _ Hstep) as Hb.
  assert (Hins : ∀ c cur x, issues st !! c = Some cur → f x = f cur →
                 f <$> <[c:=x]> (issues st) = f <$> issues st).
  { intros c cur x Hc Hx. rewrite list_fmap_insert, Hx.
    apply list_insert_id. by rewrite list_lookup_fmap, Hc. }
  unfold process_message in Hstep. unfold customer_report.
  destruct (bool_decide _ && is_customer msg) eqn:Htop.
  - destruct (current_issue st) as [c|]; simpl in Hstep.
    + destruct (issues st !! c) as [cur|] eqn:Hc; simpl in Hstep; [|done].
      destruct (close_pending cur) as [cur'|] eqn:Hcl; simpl in Hstep; [|done].
      simplify_eq. simpl. rewrite fmap_app. f_equal. eauto.
    + simplify_eq. simpl. by rewrite fmap_app.
  - rewrite app_nil_r.
    destruct (current_issue st) as [c|]; [|by simplify_eq].
    destruct (issues st !! c) as [cur|] eqn:Hc; simpl in Hstep; [|done].
    destruct (belongs_to_issue cur msg) as [[]|]; simpl in Hstep; [| |done].
    + simplify_eq. simpl. eapply Hins; [done|].
      apply Happ. eapply Forall_lookup_1; eauto.
    + destruct (is_customer msg && type_in msg [issue_report; general]).
      * destruct (close_pending cur) as [cur'|]; simpl in Hstep; [|done].
        by simplify_eq.
      * by simplify_eq.
Qed.

Lemma process_all_fmap {A} (f : Issue → A) (g : Message → A) :
  (∀ n msg, f (new_issue lower n msg) = g msg) →
  (∀ msg cur, issue_inv cur → f (append_message msg cur) = f cur) →
  (∀ cur cur', close_pending cur = Some cur' → f cur' = f cur) →
  ∀ msgs st st',
    state_inv st → process_all lower st msgs = Some st' →
    f <$> issues st' =
    (f <$> issues st) ++ (g <$> filter (fun m => customer_report m = true) msgs).
Proof.
  intros Hnew Happ Hclose.
  induction msgs as [|msg rest IH]; intros st st' Hinv Hrun; simpl in Hrun.
  - simplify_eq. by rewrite filter_nil, app_nil_r.
  - destruct (process_message_inv lower st msg Hinv) as (b & st1 & Hstep & Hinv1).
    rewrite Hstep in Hrun. simpl in Hrun.
    rewrite (IH _ _ Hinv1 Hrun).
    rewrite (process_message_fmap f _ _ _ _ Hinv Hstep (Happ msg) Hclose).
    destruct (customer_report msg) eqn:Hr.
    + rewrite filter_cons_True by done. rewrite fmap_cons, Hnew.
      by rewrite <- app_assoc.
    + rewrite filter_cons_False by (by rewrite Hr). by rewrite app_nil_r.
Qed.

Lemma finalize_fmap {A} (f : Issue → A) l l' :
  (∀ iss fi, finalize_issue iss = Some fi → f fi = f iss) →
  finalize l = Some l' → f <$> l' = f <$> l.
Proof.
  intros Hf Hl. unfold finalize in Hl. apply mapM_Some in Hl.
  induction Hl as [|iss fi l l' Hi _ IH]; [done|].
  rewrite !fmap_cons, IH. f_equal. by apply Hf.
Qed.

Lemma group_into_issues_fmap {A} (f : Issue → A) (g : Message → A) :
  (∀ n msg, f (new_issue lower n msg) = g msg) →
  (∀ msg cur, issue_inv cur → f (append_message msg cur) = f cur) →
  (∀ cur cur', close_pending cur = Some cur' → f cur' = f cur) →
  (∀ iss fi, finalize_issue iss = Some fi → f fi = f iss) →
  ∀ msgs l, group_into_issues lower msgs = Some l →
    f <$> l = g <$> filter (fun m => customer_report m = true) msgs.
Proof.
  intros Hnew Happ Hclose Hfin msgs l Hl. unfold group_into_issues in Hl.
  destruct (process_all lower initial_state msgs) as [st|] eqn:Hrun; [|done].
  simpl in Hl. rewrite (finalize_fmap f _ _ Hfin Hl).
  by rewrite (process_all_fmap f g Hnew Happ Hclose _ _ _ initial_state_inv Hrun).
Qed.

Lemma process_message_counter st msg b st' :
  process_message lower st msg = Some (b, st') →
  issue_counter st' =
  (issue_counter st + (if customer_report msg then 1 else 0))%nat.
Proof.
  intros Hstep.
  pose proof (process_message_branch lower _ _ _ _ Hstep) as Hb.
  unfold process_message in Hstep. unfold customer_report.
  destruct (bool_decide _ && is_customer msg).
  - destruct (current_issue st) as [c|]; simpl in Hstep.
    + destruct (issues st !! c) as [cur|]; simpl in Hstep; [|done].
      destruct (close_pending cur) as [cur'|]; simpl in Hstep; [|done].
      simplify_eq. simpl. lia.
    + simplify_eq. simpl. lia.
  - rewrite Nat.add_0_r.
    destruct (current_issue st) as [c|]; [|by simplify_eq].
    destruct (issues st !! c) as [cur|]; simpl in Hstep; [|done].
    destruct (belongs_to_issue cur msg) as [[]|]; simpl in Hstep; [| |done].
    + by simplify_eq.
    + destruct (is_customer msg && type_in msg [issue_report; general]).
      * destruct (close_pending cur) as [cur'|]; simpl in Hstep; [|done].
        by simplify_eq.
      * by simplify_eq.
Qed.

Lemma process_all_issue_ids msgs : ∀ st st',
  state_inv st →
  issue_counter st = S (length (issues st)) →
  issue_id <$> issues st = seq 1 (length (issues st)) →
  process_all lower st msgs = Some st' →
  issue_id <$> issues st' = seq 1 (length (issues st')).
Proof.
  induction msgs as [|msg rest IH]; intros st st' Hinv Hcnt Hids Hrun; simpl in Hrun.
  - by simplify_eq.
  - destruct (process_message_inv lower st msg Hinv) as (b & st1 & Hstep & Hinv1).
    rewrite Hstep in Hrun. simpl in Hrun.
    pose proof (process_message_fmap issue_id _ _ _ _ Hinv Hstep) as Hfm.
    rewrite Hids in Hfm.
    assert (Hlen : length (issues st1) =
                   (length (issues st) + if customer_report msg then 1 else 0)%nat).
    { rewrite <- (length_fmap issue_id (issues st1)), Hfm.
      - rewrite length_app, length_seq. by destruct (customer_report msg).
      - intros. apply append_message_reporter.
      - by intros ? ? (_ & _ & _ & _ & _ & _ & _ & ? & _)%close_pending_fields. }
    apply (IH st1); [done| | |done].
    + rewrite (process_message_counter _ _ _ _ Hstep), Hcnt, Hlen. lia.
    + rewrite Hfm, Hlen.
      * destruct (customer_report msg); simpl.
        -- rewrite Hcnt, seq_app. simpl. done.
        -- by rewrite Nat.add_0_r, app_nil_r.
      * intros. apply append_message_reporter.
      * by intros ? ? (_ & _ & _ & _ & _ & _ & _ & ? & _)%close_pending_fields.
Qed.

(** X4: the issues correspond, in order, to the customer issue reports of
    the input: the i-th issue starts with the i-th report, takes its
    reporter, initial message, start time and category from it, and has
    the identifier i (counted from 1). *)
Theorem X4_one_issue_per_customer_report (msgs : list Message) :
  ∃ l, group_into_issues lower msgs = Some l ∧
    let reports := filter (fun m => customer_report m = true) msgs in
    (fun iss => head (messages iss)) <$> l = Some <$> reports ∧
    reporter <$> l = sender <$> reports ∧
    initial_message <$> l = content <$> reports ∧
    start_time <$> l = timestamp <$> reports ∧
    category <$> l = (fun m => _categorize_issue lower (content m)) <$> reports ∧
    issue_id <$> l = seq 1 (length reports).
Proof.
  destruct (group_into_issues_is_Some lower msgs) as [l Hl].
  exists l. split; [done|]. simpl.
  assert (Hhead : (fun iss => head (messages iss)) <$> l
                  = Some <$> filter (fun m => customer_report m = true) msgs).
  { apply (group_into_issues_fmap (fun iss => head (messages iss)) Some); try done.
    - intros msg cur [Hne _]. rewrite append_message_messages.
      destruct (messages cur); done.
    - by intros ? ? (-> & _)%close_pending_fields.
    - by intros ? ? (-> & _)%finalize_issue_fields. }
  split; [done|].
  split.
  { apply (group_into_issues_fmap reporter sender); try done.
    - intros. apply append_message_reporter.
    - by intros ? ? (_ & _ & _ & _ & ? & _)%close_pending_fields.
    - by intros ? ? (_ & _ & _ & _ & ? & _)%finalize_issue_fields. }
  split.
  { apply (group_into_issues_fmap initial_message content); try done.
    - intros. apply append_message_reporter.
    - by intros ? ? (_ & _ & _ & _ & _ & ? & _)%close_pending_fields.
    - by intros ? ? (_ & _ & _ & _ & _ & ? & _)%finalize_issue_fields. }
  split.
  { apply (group_into_issues_fmap start_time timestamp); try done.
    - intros. apply append_message_start_time.
    - by intros ? ? (_ & _ & _ & _ & _ & _ & ? & _)%close_pending_fields.
    - by intros ? ? (_ & _ & _ & _ & _ & _ & ? & _)%finalize_issue_fields. }
  split.
  { apply (group_into_issues_fmap category
             (fun m => _categorize_issue lower (content m))); try done.
    - intros. apply append_message_reporter.
    - by intros ? ? (_ & _ & _ & _ & _ & _ & _ & _ & ? & _)%close_pending_fields.
    - by intros ? ? (_ & _ & _ & _ & _ & _ & _ & _ & ? & _)%finalize_issue_fields. }
  apply (f_equal length) in Hhead. rewrite !length_fmap in Hhead.
  rewrite <- Hhead. unfold group_into_issues in Hl.
  destruct (process_all lower initial_state msgs) as [st|] eqn:Hrun; [|done].
  simpl in Hl.
  rewrite (finalize_fmap issue_id _ _ ltac:(by intros ? ? (_ & _ & _ & _ & _ & _ & _ & ? & _)%finalize_issue_fields) Hl).
  rewrite <- (length_fmap issue_id l).
  rewrite (finalize_fmap issue_id _ _ ltac:(by intros ? ? (_ & _ & _ & _ & _ & _ & _ & ? & _)%finalize_issue_fields) Hl).
  rewrite length_fmap.
  by apply (process_all_issue_ids msgs initial_state st initial_state_inv).
Qed.

Lemma insert_last_snoc {A} (l : list A) c x :
  S c = length l → <[c:=x]> l = take c l ++ [x].
Proof.
  intros Hc. rewrite insert_take_drop by lia.
  by rewrite drop_ge by lia.
Qed.

Lemma lookup_last_snoc {A} (l : list A) c x :
  S c = length l → l !! c = Some x → l = take c l ++ [x].
Proof.
  intros Hc Hx. rewrite <- (take_drop_middle l c x Hx) at 1.
  by rewrite drop_ge by lia.
Qed.

(** One iteration adds its message to the assigned ones, unless it
    skips it. *)
Lemma process_message_assigned st msg b st' :
  state_inv st →
  process_message lower st msg = Some (b, st') →
  assigned (issues st') =
  assigned (issues st) ++
    match b with
    | SkippedOnBreak | SkippedNoIssue => []
    | _ => [msg]
    end.
Proof.
  intros [Hall Hcur] Hstep. unfold assigned.
  unfold process_message in Hstep.
  destruct (bool_decide _ && is_customer msg).
  - destruct (current_issue st) as [c|]; simpl in Hstep.
    + destruct (issues st !! c) as [cur|] eqn:Hc; simpl in Hstep; [|done].
      destruct (close_pending cur) as [cur'|] eqn:Hcl; simpl in Hstep; [|done].
      simplify_eq. simpl. rewrite fmap_app, concat_app. simpl.
      rewrite ?app_nil_r. f_equal. f_equal.
      rewrite list_fmap_insert.
      apply close_pending_fields in Hcl as (-> & _).
      apply list_insert_id. by rewrite list_lookup_fmap, Hc.
    + simplify_eq. simpl. rewrite fmap_app, concat_app. simpl.
      by rewrite ?app_nil_r.
  - destruct (current_issue st) as [c|]; [|simplify_eq; by rewrite app_nil_r].
    destruct Hcur as (Hlen & _).
    destruct (issues st !! c) as [cur|] eqn:Hc; simpl in Hstep; [|done].
    destruct (belongs_to_issue cur msg) as [[]|]; simpl in Hstep; [| |done].
    + simplify_eq. cbn [issues].
      rewrite (insert_last_snoc _ _ _ Hlen).
      rewrite (lookup_last_snoc _ _ _ Hlen Hc) at 2.
      rewrite !fmap_app, !concat_app. cbn [fmap list_fmap concat].
      rewrite append_message_messages, ?app_nil_r. by rewrite ?app_assoc.
    + destruct (is_customer msg && type_in msg [issue_report; general]).
      * destruct (close_pending cur) as [cur'|] eqn:Hcl; simpl in Hstep; [|done].
        simplify_eq. simpl. rewrite fmap_app, concat_app. simpl.
        rewrite ?app_nil_r. f_equal. f_equal.
        rewrite list_fmap_insert.
        apply close_pending_fields in Hcl as (-> & _).
        apply list_insert_id. by rewrite list_lookup_fmap, Hc.
      * simplify_eq. by rewrite app_nil_r.
Qed.

Lemma process_all_assigned msgs : ∀ st st',
  state_inv st → process_all lower st msgs = Some st' →
  ∃ kept, assigned (issues st') = assigned (issues st) ++ kept ∧
          kept `sublist_of` msgs ∧
          filter (fun m => customer_report m = true) kept
            = filter (fun m => customer_report m = true) msgs.
Proof.
  induction msgs as [|msg rest IH]; intros st st' Hinv Hrun; simpl in Hrun.
  - simplify_eq. exists []. by rewrite app_nil_r.
  - destruct (process_message_inv lower st msg Hinv) as (b & st1 & Hstep & Hinv1).
    rewrite Hstep in Hrun. simpl in Hrun.
    destruct (IH _ _ Hinv1 Hrun) as (kept & Hk & Hsub & Hrep).
    rewrite (process_message_assigned _ _ _ _ Hinv Hstep) in Hk.
    pose proof (process_message_branch lower _ _ _ _ Hstep) as Hb.
    assert (Hskip : (b = SkippedOnBreak ∨ b = SkippedNoIssue) →
                    customer_report msg = false).
    { unfold customer_report, is_customer.
      intros [->| ->]; destruct Hb as (_ & _ & Hnot);
        apply not_true_iff_false; rewrite andb_true_iff, !bool_decide_eq_true;
        intros [? ?]; apply Hnot; split; [done|set_solver|done|done]. }
    destruct b; try done.
    1,2: exists (msg :: kept); rewrite <- app_assoc in Hk;
         (split; [done|]); (split; [by constructor|]);
         rewrite !filter_cons; case_decide; by rewrite Hrep.
    1,2: exists kept; rewrite app_nil_r in Hk;
         (split; [done|]); (split; [by constructor|]);
         rewrite filter_cons_False; [done|]; rewrite Hskip; [done|auto].
Qed.

(** X5: the messages of the returned issues, taken issue after issue, are
    a subsequence of the input, so that no message is in two issues and
    the order of arrival is kept; every customer issue report of the
    input is among them. *)
Theorem X5_issues_partition_input (msgs : list Message) :
  ∃ l, group_into_issues lower msgs = Some l ∧
       assigned l `sublist_of` msgs ∧
       filter (fun m => customer_report m = true) (assigned l)
         = filter (fun m => customer_report m = true) msgs.
Proof.
  destruct (group_into_issues_is_Some lower msgs) as [l Hl].
  exists l. split; [done|].
  unfold group_into_issues in Hl.
  destruct (process_all lower initial_state msgs) as [st|] eqn:Hrun; [|done].
  simpl in Hl.
  destruct (process_all_assigned _ _ _ initial_state_inv Hrun)
    as (kept & Hk & Hsub & Hrep).
  unfold assigned in *.
  rewrite (finalize_fmap messages _ _
             ltac:(by intros ? ? (? & _)%finalize_issue_fields) Hl).
  simpl in Hk. by rewrite Hk.
Qed.

(** *** Time order *)

Lemma time_ok_mono T T' iss : T ≤ T' → time_ok T iss → time_ok T' iss.
Proof.
  intros HT (Hs & Hall & Hst & Hf & Hr & He & Ho).
  repeat split; try done; try lia.
  - eapply Forall_impl; [exact Hall|]. simpl. lia.
  - destruct (He _ H). lia.
  - destruct (He _ H). lia.
Qed.

Lemma time_ok_new n msg : time_ok (timestamp msg) (new_issue lower n msg).
Proof.
  repeat split; simpl; try done; try lia.
  - repeat constructor.
  - repeat constructor; lia.
Qed.

Lemma time_ok_append T msg iss :
  T ≤ timestamp msg → time_ok T iss →
  time_ok (timestamp msg) (append_message msg iss).
Proof.
  intros HT (Hs & Hall & Hst & Hf & Hr & He & Ho).
  unfold time_ok.
  rewrite append_message_messages, append_message_start_time,
    append_message_first_response_time, append_message_resolution_time,
    append_message_end_time, append_message_status.
  split; [|split; [|split; [|split; [|split; [|split]]]]].
  - rewrite fmap_app. apply StronglySorted_app_2.
    + intros t1 t2 (m & -> & Hm)%list_elem_of_fmap ->%list_elem_of_singleton.
      rewrite Forall_forall in Hall. specialize (Hall _ Hm). lia.
    + done.
    + repeat constructor.
  - apply Forall_app. split.
    + eapply Forall_impl; [exact Hall|]. simpl. lia.
    + apply Forall_singleton. lia.
  - lia.
  - destruct (first_response_time iss) as [d0|]; [by apply Hf|].
    destruct (responds msg); intros d ?; simplify_eq. lia.
  - destruct (resolves msg); [|by apply Hr]. intros d ?; simplify_eq. lia.
  - destruct (resolves msg).
    + intros e ?; simplify_eq. lia.
    + intros e Hee. destruct (He _ Hee). lia.
  - destruct (resolves msg); [by eexists | done].
Qed.

Lemma time_ok_close T iss iss' :
  time_ok T iss → close_pending iss = Some iss' → time_ok T iss'.
Proof.
  intros (Hs & Hall & Hst & Hf & Hr & He & Ho) Hcl.
  unfold close_pending in Hcl.
  destruct (decide (status iss = open)); [|by simplify_eq].
  unfold last_timestamp in Hcl.
  destruct (last (messages iss)) as [m|] eqn:Hlast; simpl in Hcl; [|done].
  simplify_eq. unfold time_ok. simpl.
  do 5 (split; [done|]). split; [|by eexists].
  intros e' [= <-]. apply last_Some_elem_of in Hlast.
  rewrite Forall_forall in Hall. by apply Hall.
Qed.

Lemma time_ok_finalize T iss f :
  time_ok T iss → finalize_issue iss = Some f → times_ok f.
Proof.
  intros (Hs & Hall & Hst & Hf & Hr & He & Ho) Hfin.
  unfold finalize_issue in Hfin.
  destruct (decide (status iss = open)) as [Hopen|Hopen].
  - unfold last_timestamp in Hfin.
    destruct (last (messages iss)) as [m|] eqn:Hlast; simpl in Hfin; [|done].
    simplify_eq. unfold times_ok. simpl.
    do 3 (split; [done|]).
    eexists. split; [done|]. apply last_Some_elem_of in Hlast.
    rewrite Forall_forall in Hall. by apply Hall.
  - simplify_eq. unfold times_ok. do 3 (split; [done|]).
    destruct (Ho Hopen) as [e' Hee]. exists e'. split; [done|].
    by apply He.
Qed.

Lemma process_all_time_ok msgs : ∀ T st st',
  StronglySorted Z.le (timestamp <$> msgs) →
  Forall (fun m => T ≤ timestamp m) msgs →
  Forall (time_ok T) (issues st) →
  process_all lower st msgs = Some st' →
  ∃ T', Forall (time_ok T') (issues st').
Proof.
  induction msgs as [|msg rest IH]; intros T st st' Hsorted Hlow Hok Hrun;
    simpl in Hrun.
  - simplify_eq. eauto.
  - destruct (process_message lower st msg) as [[b st1]|] eqn:Hstep; [|done].
    simpl in Hrun. rewrite fmap_cons in Hsorted.
    apply StronglySorted_cons in Hsorted as [Hle Hsorted].
    apply Forall_cons in Hlow as [HT _].
    apply (IH (timestamp msg) st1 st'); [done| |..|done].
    + by rewrite Forall_fmap in Hle.
    + eapply process_message_Forall; [done..| | | |].
      * intros iss. by apply time_ok_mono.
      * intros iss. by apply time_ok_append.
      * intros iss iss' Hi Hcl. eapply time_ok_close; [|done].
        by eapply time_ok_mono.
      * intros _. apply time_ok_new.
Qed.

(** X6: when the messages arrive in time order, every issue that is
    returned has its messages in time order, latencies that are not
    negative, and an end time that is set and not before its start. *)
Theorem X6_time_order (msgs : list Message) :
  StronglySorted Z.le (timestamp <$> msgs) →
  ∃ l, group_into_issues lower msgs = Some l ∧ Forall times_ok l.
Proof.
  intros Hsorted.
  destruct (group_into_issues_is_Some lower msgs) as [l Hl].
  exists l. split; [done|].
  unfold group_into_issues in Hl.
  destruct (process_all lower initial_state msgs) as [st|] eqn:Hrun; [|done].
  simpl in Hl.
  destruct msgs as [|m0 rest].
  { simpl in Hrun. simplify_eq. unfold finalize in Hl. simpl in Hl.
    injection Hl as <-. constructor. }
  destruct (process_all_time_ok (m0 :: rest) (timestamp m0) initial_state st Hsorted)
    as [T' HT']; [|constructor|done|].
  { rewrite fmap_cons in Hsorted.
    apply StronglySorted_cons in Hsorted as [Hle _].
    constructor; [lia|]. by rewrite Forall_fmap in Hle. }
  apply Forall_lookup_2. intros i f Hf.
  unfold finalize in Hl. apply mapM_Some in Hl.
  destruct (Forall2_lookup_r _ _ _ _ _ Hl Hf) as (iss & Hi & Hfi).
  eapply time_ok_finalize; [|done]. eapply Forall_lookup_1; eauto.
Qed.

(** *** What the aggregator sees *)

Lemma count_status_partition (l : list Issue) :
  Forall (fun iss => status iss ≠ open) l →
  (count_status resolved l + count_status pending l + count_status no_response l
   = length l)%nat.
Proof.
  unfold count_status. induction 1 as [|iss l Hiss _ IH]; [done|].
  rewrite !filter_cons. simpl.
  destruct (status iss); try done; repeat case_decide; try done; simpl; lia.
Qed.

(** X7: the engine raises no exception and leaves no returned issue open,
    so that in the record of the aggregator the numbers of resolved,
    pending and unanswered issues add up to the total. *)
Theorem X7_no_issue_left_open (fl : Q -> Q) (msgs : list Message) :
  ∃ l, group_into_issues lower msgs = Some l ∧
       Forall (fun iss => status iss ≠ open) l ∧
       match calculate_kpis fl l with
       | KpiError _ => l = []
       | KpiValues k =>
           (resolved_issues k + pending_issues k + no_response_issues k
            = total_issues k)%nat
       end.
Proof.
  destruct (group_into_issues_is_Some lower msgs) as [l Hl].
  exists l. split; [done|].
  assert (Hclosed : Forall (fun iss => status iss ≠ open) l).
  { unfold group_into_issues in Hl.
    destruct (process_all lower initial_state msgs) as [st|]; [|done].
    simpl in Hl. apply Forall_lookup_2. intros i f Hf.
    unfold finalize in Hl. apply mapM_Some in Hl.
    destruct (Forall2_lookup_r _ _ _ _ _ Hl Hf) as (iss & _ & Hfi).
    by apply finalize_issue_closed in Hfi as [? _]. }
  split; [done|].
  destruct l as [|iss l]; [done|]. simpl.
  by apply (count_status_partition (iss :: l)).
Qed.

End SegmentationFurther.

(** * Resolution of an issue *)

Section SegmentationResolution.

Variable lower : str -> str.









End SegmentationResolution.


(** C9 as stated fails for a customer message that mentions a ticket: no
    keyword group matches its body, and its intent is issue report, not
    the fallback general. *)
Lemma C9_counterexample :
  content ticket_mention = u "9563926 please" ∧
  sender_type ticket_mention = customer ∧
  has_ticket_id ticket_mention = true ∧
  any_in issue_indicators (ascii_lower (u "9563926 please")) = false ∧
  _contains_keywords (u "9563926 please") patterns_follow_up = false ∧
  _classify_message_type ascii_lower customer (u "9563926 please") true
    = issue_report ∧
  message_type ticket_mention = issue_report.
Proof. repeat split. Qed.

(** * Further properties of the parser helpers *)

Lemma startswith_spec (p s : str) :
  startswith p s = true ↔ ∃ post, s = p ++ post.
Proof.
  revert s. induction p as [|a p IH]; intros s; simpl.
  - split; [eauto | done].
  - destruct s as [|b s]; simpl.
    + split; [done | by intros [? ?]].
    + rewrite andb_true_iff, N.eqb_eq, IH. split.
      * intros [-> [post ->]]. eauto.
      * intros [post ?]. simplify_eq. eauto.
Qed.

(** The substring test holds exactly of the texts that have the needle
    somewhere inside. *)
Lemma contains_spec (needle hay : str) :
  contains needle hay = true ↔ ∃ pre post, hay = pre ++ needle ++ post.
Proof.
  induction hay as [|c hay IH]; simpl.
  - rewrite orb_false_r, startswith_spec. split.
    + intros [post H]. exists [], post. done.
    + intros (pre & post & H). destruct pre; simpl in H; [eauto|done].
  - rewrite orb_true_iff, startswith_spec, IH. split.
    + intros [[post H]|(pre & post & H)].
      * exists [], post. done.
      * exists (c :: pre), post. by rewrite H.
    + intros (pre & post & H). destruct pre as [|c' pre]; simpl in H.
      * left. eauto.
      * right. simplify_eq. eauto.
Qed.

Lemma any_in_spec (keywords : list str) (text : str) :
  any_in keywords text = true ↔
  ∃ k pre post, k ∈ keywords ∧ text = pre ++ k ++ post.
Proof.
  unfold any_in. rewrite existsb_exists. split.
  - intros (k & Hin & (pre & post & H)%contains_spec).
    exists k, pre, post. by rewrite list_elem_of_In.
  - intros (k & pre & post & Hin & H). exists k. split.
    + by rewrite <- list_elem_of_In.
    + apply contains_spec. eauto.
Qed.

Lemma count_chars_app cls (a b : str) :
  count_chars cls (a ++ b) = (count_chars cls a + count_chars cls b)%nat.
Proof. unfold count_chars, str in *. by rewrite filter_app, length_app. Qed.

Lemma count_chars_Permutation cls (a b : str) :
  a ≡ₚ b → count_chars cls a = count_chars cls b.
Proof. intros H. unfold count_chars, str in *. by rewrite H. Qed.

(** X9: the detected language depends on the two character counts only:
    it does not change when the characters of the text are rearranged,
    two texts of the same language give that language when joined, and a
    text with neither an Arabic character nor a Latin letter is mixed. *)
Theorem X9_language_by_counts (a b : str) :
  (a ≡ₚ b → _detect_language a = _detect_language b) ∧
  (_detect_language a = _detect_language b →
   _detect_language (a ++ b) = _detect_language a) ∧
  (count_chars is_arabic_char a = 0%nat → count_chars is_latin_letter a = 0%nat →
   _detect_language a = mixed).
Proof.
  unfold _detect_language. split; [|split].
  - intros H.
    by rewrite (count_chars_Permutation is_arabic_char a b H),
      (count_chars_Permutation is_latin_letter a b H).
  - rewrite !count_chars_app.
    repeat case_decide; intros ?; simplify_eq; try done; lia.
  - intros -> ->. by repeat case_decide; try lia.
Qed.

(** * Properties of the member role resolver *)

Section MemberRolesFacts.

Variable lower : str -> str.
Variable isalnum : N -> bool.

#[local] Abbreviation mentions words :=
  (fun r : RawMessage => any_in words (lower (raw_content r)) = true).
#[local] Abbreviation closes :=
  (fun r : RawMessage => search_closure isalnum (lower (raw_content r)) = true).

Lemma foldl_analyze_message msgs : ∀ a b c d,
  foldl (analyze_message lower isalnum) (a, b, c, d) msgs =
  ((a + length (filter (mentions (issue_keywords_arabic ++ issue_keywords_english)) msgs))%nat,
   (b + length (filter closes msgs))%nat,
   (c + length (filter (mentions (acknowledgment_arabic ++ acknowledgment_english)) msgs))%nat,
   (d + length (filter (mentions (resolution_arabic ++ resolution_english)) msgs))%nat).
Proof.
  induction msgs as [|r msgs IH]; intros a b c d.
  - simpl. by rewrite !Nat.add_0_r.
  - cbn [foldl]. unfold analyze_message at 2. rewrite IH. rewrite !filter_cons.
    repeat case_decide;
      repeat match goal with
             | H : _ = true |- _ => rewrite H
             | H : ¬ (_ = true) |- _ => apply not_true_is_false in H; rewrite H
             end;
      simpl; (apply (f_equal2 pair); [apply (f_equal2 pair); [apply (f_equal2 pair)|]|]); lia.
Qed.

(** X10: the four counters of the behaviour analysis are the numbers of
    messages of the sender whose lower-cased body has an issue keyword,
    a closure word between word boundaries, an acknowledgment keyword and
    a resolution keyword; a sender is taken for a customer only if some
    message has an issue keyword and fewer than three have a resolution
    keyword, and a sender without any message is taken for support. *)
Theorem X10_sender_behaviour_counts (msgs : list RawMessage) :
  let a := _analyze_sender_behavior lower isalnum msgs in
  issue_count a
    = length (filter (mentions (issue_keywords_arabic ++ issue_keywords_english)) msgs) ∧
  response_count a = length (filter closes msgs) ∧
  has_acknowledgments a
    = length (filter (mentions (acknowledgment_arabic ++ acknowledgment_english)) msgs) ∧
  has_resolutions a
    = length (filter (mentions (resolution_arabic ++ resolution_english)) msgs) ∧
  (likely_customer a = true →
     (∃ r, r ∈ msgs ∧ mentions (issue_keywords_arabic ++ issue_keywords_english) r) ∧
     (has_resolutions a < 3)%nat) ∧
  (msgs = [] → likely_customer a = false).
Proof.
  unfold _analyze_sender_behavior. rewrite foldl_analyze_message.
  cbn [issue_count response_count has_acknowledgments has_resolutions
       likely_customer Nat.add].
  do 4 (split; [done|]). split.
  - intros [Hlt%bool_decide_eq_true Hres%bool_decide_eq_true]%andb_prop.
    split; [|done].
    destruct (filter (mentions (issue_keywords_arabic ++ issue_keywords_english)) msgs)
      as [|r rest] eqn:Hf; [simpl in Hlt; lia|].
    assert (Hr : r ∈ filter (mentions (issue_keywords_arabic ++ issue_keywords_english)) msgs)
      by (rewrite Hf; left).
    apply list_elem_of_filter in Hr as [? ?]. eauto.
  - by intros ->.
Qed.

Lemma foldl_classify_member raw ws : ∀ m,
  let likely := fun w =>
    likely_customer (_analyze_sender_behavior lower isalnum
                       (filter (fun r => raw_sender r = w) raw)) = true in
  customers (foldl (classify_member lower isalnum raw) m ws)
    = customers m ∪ list_to_set (filter likely ws) ∧
  support_staff (foldl (classify_member lower isalnum raw) m ws)
    = support_staff m ∪ list_to_set (filter (fun w => ¬ likely w) ws).
Proof.
  induction ws as [|w ws IH]; intros m; simpl.
  - split; set_solver.
  - destruct (IH (classify_member lower isalnum raw m w)) as [-> ->].
    unfold classify_member. rewrite !filter_cons.
    destruct (likely_customer _) eqn:Hl; simpl;
      repeat case_decide; try done; split; set_solver.
Qed.

Lemma elem_of_sorted (l : list str) (x : str) : x ∈ sorted l ↔ x ∈ l.
Proof. unfold sorted. by rewrite merge_sort_Permutation. Qed.

Lemma classify_members_covers (raw : list RawMessage)
    (all_senders : gset str) (m : Members) :
  let m' := classify_members lower isalnum raw all_senders m in
  customers m ⊆ customers m' ∧
  support_staff m ⊆ support_staff m' ∧
  all_senders ⊆ customers m' ∪ support_staff m' ∧
  customers m' ∪ support_staff m' ⊆ customers m ∪ support_staff m ∪ all_senders ∧
  (customers m ## support_staff m → customers m' ## support_staff m').
Proof.
  unfold classify_members.
  destruct (foldl_classify_member raw
              (sorted (elements (all_senders ∖ customers m ∖ support_staff m))) m)
    as [Hc Hs].
  simpl. rewrite Hc, Hs.
  assert (Hin : ∀ x, x ∈ sorted (elements (all_senders ∖ customers m ∖ support_staff m))
                     ↔ (x ∈ all_senders ∧ (x ∉ customers m) ∧ (x ∉ support_staff m))).
  { intros x. rewrite elem_of_sorted, elem_of_elements. set_solver. }
  repeat split.
  - set_solver.
  - set_solver.
  - intros x Hx.
    destruct (decide (x ∈ customers m)); [set_solver|].
    destruct (decide (x ∈ support_staff m)); [set_solver|].
    assert (Hxs : x ∈ sorted (elements (all_senders ∖ customers m ∖ support_staff m)))
      by (by apply Hin).
    destruct (likely_customer (_analyze_sender_behavior lower isalnum
                (filter (fun r => raw_sender r = x) raw))) eqn:Hl.
    + apply elem_of_union_l, elem_of_union_r, elem_of_list_to_set.
      apply list_elem_of_filter. done.
    + apply elem_of_union_r, elem_of_union_r, elem_of_list_to_set.
      apply list_elem_of_filter. split; [|done]. by rewrite Hl.
  - intros x. rewrite !elem_of_union, !elem_of_list_to_set, !list_elem_of_filter, !Hin.
    tauto.
  - intros Hdisj x.
    rewrite !elem_of_union, !elem_of_list_to_set, !list_elem_of_filter, !Hin.
    intros [?|[? ?]] [?|[? ?]]; try tauto. by apply (Hdisj x).
Qed.

(** X11: the role resolver keeps the roster it was given, puts every
    sender of the chat into one of the two lists, adds nobody else, and
    keeps the two lists disjoint when they were. *)
Theorem X11_every_sender_gets_a_role (raw : list RawMessage)
    (all_senders : gset str) (m : Members) :
  let m' := classify_members lower isalnum raw all_senders m in
  customers m ⊆ customers m' ∧
  support_staff m ⊆ support_staff m' ∧
  all_senders ⊆ customers m' ∪ support_staff m' ∧
  customers m' ∪ support_staff m' ⊆ customers m ∪ support_staff m ∪ all_senders ∧
  (customers m ## support_staff m → customers m' ## support_staff m').
Proof. apply classify_members_covers. Qed.

(** X12: a second run of the role resolver on its own result changes
    nothing. *)
Theorem X12_resolved_roster_is_stable (raw : list RawMessage)
    (all_senders : gset str) (m : Members) :
  let m' := classify_members lower isalnum raw all_senders m in
  classify_members lower isalnum raw all_senders m' = m'.
Proof.
  intros m'.
  destruct (classify_members_covers raw all_senders m) as (_ & _ & Hcover & _).
  unfold classify_members at 1.
  replace (all_senders ∖ customers m' ∖ support_staff m') with (∅ : gset str)
    by (fold m' in Hcover; set_solver).
  by rewrite elements_empty.
Qed.

(** The classifier gives the intent other to no customer and to no member
    of the support staff. *)
Lemma _classify_message_type_known st text has_ticket :
  st ≠ unknown → _classify_message_type lower st text has_ticket ≠ other.
Proof.
  unfold _classify_message_type. destruct st; [| |done]; intros _;
    repeat case_match; done.
Qed.

(** X13: after the role resolver has run over the senders of the chat, no
    message of the chat is classified with the role unknown or with the
    intent other. *)
Theorem X13_no_unknown_after_resolution (raw : list RawMessage) (m : Members) :
  let m' := classify_members lower isalnum raw (collect_senders raw) m in
  Forall (fun msg => sender_type msg ≠ unknown ∧ message_type msg ≠ other)
    (classify_messages lower (customers m') (support_staff m') raw).
Proof.
  intros m'.
  destruct (classify_members_covers raw (collect_senders raw) m) as (_ & _ & Hcover & _).
  fold m' in Hcover.
  unfold classify_messages. apply Forall_fmap, Forall_forall. intros r Hr.
  assert (Hknown : raw_sender r ∈ customers m' ∪ support_staff m').
  { apply Hcover. unfold collect_senders. apply elem_of_list_to_set.
    apply list_elem_of_fmap. eauto. }
  assert (Hst : sender_type (classify_message lower (customers m') (support_staff m') r)
                ≠ unknown).
  { simpl. repeat case_decide; try done. set_solver. }
  split; [done|]. simpl. simpl in Hst.
  by apply _classify_message_type_known.
Qed.

End MemberRolesFacts.


(** * Properties of the timing patterns *)

Section CountBy.

Context {K : Type} `{EqDecision K}.

Lemma bump_keys (k : K) d :
  fst <$> bump k d = if decide (k ∈ fst <$> d) then fst <$> d else (fst <$> d) ++ [k].
Proof.
  induction d as [|[k' n] d IH].
  - destruct (decide (k ∈ fst <$> [])) as [Hin|_]; [|done]. by apply elem_of_nil in Hin.
  - rewrite fmap_cons. cbn [bump fst].
    destruct (decide (k = k')) as [->|Hne].
    + rewrite fmap_cons. cbn [fst].
      destruct (decide (k' ∈ k' :: (fst <$> d))) as [_|Hnin]; [done|].
      exfalso. apply Hnin. left.
    + rewrite fmap_cons, IH. cbn [fst].
      destruct (decide (k ∈ fst <$> d)) as [Hin|Hnin],
        (decide (k ∈ k' :: (fst <$> d))) as [Hin'|Hnin']; try done.
      * exfalso. apply Hnin'. by right.
      * exfalso. apply elem_of_cons in Hin' as [?|?]; done.
Qed.

Lemma bump_NoDup (k : K) d : NoDup (fst <$> d) → NoDup (fst <$> bump k d).
Proof.
  intros Hd. rewrite bump_keys. case_decide; [done|].
  apply NoDup_app. repeat split; [done| |apply NoDup_singleton].
  intros x Hx ->%list_elem_of_singleton. done.
Qed.

Lemma tally_cons (k k0 : K) n d :
  tally k ((k0, n) :: d) = ((if decide (k0 = k) then n else 0) + tally k d)%nat.
Proof.
  unfold tally. rewrite filter_cons. cbn [fst].
  destruct (decide (k0 = k)); [|done]. by rewrite fmap_cons.
Qed.

Lemma bump_tally (k k' : K) d :
  tally k' (bump k d) = (tally k' d + if decide (k' = k) then 1 else 0)%nat.
Proof.
  induction d as [|[k0 n] d IH]; cbn [bump].
  - rewrite tally_cons. unfold tally. rewrite filter_nil. simpl.
    destruct (decide (k = k')), (decide (k' = k)); subst; done.
  - destruct (decide (k = k0)) as [<-|Hne]; rewrite !tally_cons, ?IH;
      repeat case_decide; subst; try done; lia.
Qed.

Lemma bump_sum (k : K) d :
  list_sum (snd <$> bump k d) = S (list_sum (snd <$> d)).
Proof.
  induction d as [|[k0 n0] d IH]; cbn [bump]; [done|].
  destruct (decide (k = k0)); rewrite !fmap_cons; [done|].
  change (list_sum (snd (k0, n0) :: (snd <$> bump k d)))
    with (n0 + list_sum (snd <$> bump k d))%nat.
  rewrite IH. simpl. lia.
Qed.

Lemma bump_positive (k : K) d :
  Forall (fun kv => 0 < kv.2)%nat d → Forall (fun kv => 0 < kv.2)%nat (bump k d).
Proof.
  induction 1 as [|[k0 n] d Hn Hd IH]; cbn [bump].
  - apply Forall_singleton. simpl. lia.
  - destruct (decide (k = k0)); apply Forall_cons; simpl in *; (split; [lia|done]).
Qed.

Lemma tally_absent (k : K) d : k ∉ fst <$> d → tally k d = 0%nat.
Proof.
  induction d as [|[k0 n0] d IH]; [done|].
  rewrite fmap_cons, not_elem_of_cons. cbn [fst]. intros [Hne Hnin].
  rewrite tally_cons, decide_False by done. by rewrite IH.
Qed.

Lemma tally_entry (k : K) n d :
  NoDup (fst <$> d) → (k, n) ∈ d → tally k d = n.
Proof.
  induction d as [|[k0 n0] d IH]; [by intros _ ?%elem_of_nil|].
  rewrite fmap_cons, NoDup_cons. cbn [fst]. intros [Hk0 Hd] Hin.
  rewrite tally_cons.
  apply elem_of_cons in Hin as [Heq|Hin].
  - simplify_eq. rewrite decide_True by done.
    rewrite (tally_absent _ _ Hk0). lia.
  - rewrite decide_False.
    + by apply IH.
    + intros ->. apply Hk0. apply list_elem_of_fmap. by exists (k, n).
Qed.

Lemma tally_positive (k : K) d :
  (0 < tally k d)%nat → ∃ n, (k, n) ∈ d.
Proof.
  induction d as [|[k0 n0] d IH]; [unfold tally; simpl; lia|].
  rewrite tally_cons. destruct (decide (k0 = k)) as [->|Hne].
  - intros _. exists n0. left.
  - intros H. destruct (IH H) as [n Hn]. exists n. by right.
Qed.

Lemma count_by_snoc {A} (key : A → K) l x :
  count_by key (l ++ [x]) = bump (key x) (count_by key l).
Proof. unfold count_by. by rewrite foldl_app. Qed.

(** What a counter built by [d[key(x)] += 1] holds: one entry for every
    key that occurs, with the number of its occurrences. *)
Lemma count_by_spec {A} (key : A → K) (l : list A) :
  NoDup (fst <$> count_by key l) ∧
  (∀ k n, (k, n) ∈ count_by key l ↔
          (0 < n)%nat ∧ n = length (filter (fun x => key x = k) l)) ∧
  list_sum (snd <$> count_by key l) = length l.
Proof.
  assert (Hinv : NoDup (fst <$> count_by key l) ∧
                 Forall (fun kv => 0 < kv.2)%nat (count_by key l) ∧
                 (∀ k, tally k (count_by key l)
                       = length (filter (fun x => key x = k) l)) ∧
                 list_sum (snd <$> count_by key l) = length l).
  { induction l as [|x l IH] using rev_ind.
    - repeat split; try done. constructor.
    - destruct IH as (Hnd & Hpos & Htal & Hsum).
      rewrite count_by_snoc. repeat split.
      + by apply bump_NoDup.
      + by apply bump_positive.
      + intros k. rewrite bump_tally, Htal, filter_app, length_app.
        f_equal. rewrite filter_cons, filter_nil.
        destruct (decide (k = key x)) as [->|].
        * by rewrite decide_True.
        * by rewrite decide_False by done.
      + rewrite length_app, bump_sum, Hsum. simpl. lia. }
  destruct Hinv as (Hnd & Hpos & Htal & Hsum).
  split; [done|]. split; [|done].
  intros k n. split.
  - intros Hin. split.
    + rewrite Forall_forall in Hpos. apply (Hpos _ Hin).
    + rewrite <- Htal. symmetry. by apply tally_entry.
  - intros [Hn ->]. rewrite <- Htal in Hn |- *.
    destruct (tally_positive _ _ Hn) as [n' Hn'].
    by rewrite (tally_entry _ _ _ Hnd Hn').
Qed.

End CountBy.

Section TimingFacts.

Variable fl : Q -> Q.
Variable hour : datetime -> Z.
Variable weekday : datetime -> str.




(** X15: the distributions by hour and by day of the week hold one entry
    for every hour (day) on which some issue started, with the number of
    issues that started then; no key is repeated and the numbers add up
    to the number of issues. *)
Theorem X15_distributions_count_issues (l : list Issue) :
  match _analyze_timing_patterns fl hour weekday l with
  | None => l = []
  | Some t =>
      (NoDup (fst <$> hour_distribution t) ∧
       (∀ h n, (h, n) ∈ hour_distribution t ↔
               (0 < n)%nat ∧
               n = length (filter (fun i => hour (start_time i) = h) l)) ∧
       list_sum (snd <$> hour_distribution t) = length l) ∧
      (NoDup (fst <$> weekday_distribution t) ∧
       (∀ d n, (d, n) ∈ weekday_distribution t ↔
               (0 < n)%nat ∧
               n = length (filter (fun i => weekday (start_time i) = d) l)) ∧
       list_sum (snd <$> weekday_distribution t) = length l)
  end.
Proof.
  destruct l as [|i l]; [done|].
  cbn [_analyze_timing_patterns hour_distribution weekday_distribution].
  split; apply count_by_spec.
Qed.

End TimingFacts.


(** * Properties of the latency statistics and the rankings *)

Lemma foldl_min_le t times :
  foldl Z.min t times ≤ t ∧ Forall (fun x => foldl Z.min t times ≤ x) times ∧
  (foldl Z.min t times = t ∨ foldl Z.min t times ∈ times).
Proof.
  revert t. induction times as [|x times IH]; intros t; simpl.
  - repeat split; [lia | constructor | by left].
  - destruct (IH (Z.min t x)) as (Hle & Hall & Hin).
    repeat split; [lia | constructor; [lia|done] |].
    destruct Hin as [Heq|Hin]; [|right; by right].
    rewrite Heq. destruct (Z.min_spec t x) as [[_ ->]|[_ ->]]; [by left | right; left].
Qed.

Lemma foldl_max_ge t times :
  t ≤ foldl Z.max t times ∧ Forall (fun x => x ≤ foldl Z.max t times) times ∧
  (foldl Z.max t times = t ∨ foldl Z.max t times ∈ times).
Proof.
  revert t. induction times as [|x times IH]; intros t; simpl.
  - repeat split; [lia | constructor | by left].
  - destruct (IH (Z.max t x)) as (Hle & Hall & Hin).
    repeat split; [lia | constructor; [lia|done] |].
    destruct Hin as [Heq|Hin]; [|right; by right].
    rewrite Heq. destruct (Z.max_spec t x) as [[_ ->]|[_ ->]]; [right; left | by left].
Qed.

Lemma foldl_add_bounds lo hi times : ∀ acc,
  Forall (fun x => lo ≤ x ≤ hi) times →
  acc + lo * Z.of_nat (length times) ≤ foldl Z.add acc times
  ≤ acc + hi * Z.of_nat (length times).
Proof.
  induction times as [|x times IH]; intros acc Hall; simpl; [lia|].
  apply Forall_cons in Hall as [Hx Hall].
  specialize (IH (acc + x) Hall). lia.
Qed.

(** Rounding to the nearest integer stays between two integer bounds of
    the quotient. *)
Lemma _divide_and_round_between (a n lo hi : Z) :
  0 < n → lo * n ≤ a ≤ hi * n → lo ≤ _divide_and_round a n ≤ hi.
Proof.
  intros Hn [Hlo Hhi]. unfold _divide_and_round.
  pose proof (Z.div_mod a n ltac:(lia)) as Hdm.
  pose proof (Z.mod_pos_bound a n Hn) as Hmod.
  assert (Hq : lo ≤ a / n ≤ hi).
  { split.
    - apply Z.div_le_lower_bound; lia.
    - apply Z.div_le_upper_bound; lia. }
  replace (0 <? n) with true by (symmetry; by apply Z.ltb_lt).
  destruct (n <? 2 * (a mod n)) eqn:Hhalf; simpl.
  - apply Z.ltb_lt in Hhalf. nia.
  - destruct (2 * (a mod n) =? n) eqn:Htie; simpl; [|lia].
    apply Z.eqb_eq in Htie.
    destruct (a / n mod 2 =? 1); [nia | lia].
Qed.

(** X16: with no latency the average is the zero duration and there is
    neither a minimum nor a maximum; otherwise the minimum and the
    maximum are latencies of the list, bound every latency of the list,
    and the rounded average lies between them. *)
Theorem X16_average_between_min_and_max (times : list timedelta) :
  match times with
  | [] => latency_stats times
          = {| avg_time := 0; min_time := None; max_time := None |}
  | _ :: _ =>
      ∃ lo hi, min_time (latency_stats times) = Some lo ∧
               max_time (latency_stats times) = Some hi ∧
               lo ∈ times ∧ hi ∈ times ∧
               Forall (fun x => lo ≤ x ≤ hi) times ∧
               lo ≤ avg_time (latency_stats times) ≤ hi
  end.
Proof.
  destruct times as [|t rest]; [done|].
  destruct (foldl_min_le t rest) as (Hmin & Hmins & Hminin).
  destruct (foldl_max_ge t rest) as (Hmax & Hmaxs & Hmaxin).
  exists (foldl Z.min t rest), (foldl Z.max t rest).
  assert (Hall : Forall (fun x => foldl Z.min t rest ≤ x ≤ foldl Z.max t rest)
                   (t :: rest)).
  { constructor; [done|]. rewrite Forall_forall in *. intros x Hx.
    split; [by apply Hmins | by apply Hmaxs]. }
  split; [done|]. split; [done|].
  split; [destruct Hminin as [->|?]; [left | by right]|].
  split; [destruct Hmaxin as [->|?]; [left | by right]|].
  split; [done|].
  cbn [latency_stats avg_time]. apply _divide_and_round_between.
  - simpl. lia.
  - pose proof (foldl_add_bounds _ _ _ 0 Hall) as Hsum. unfold sum_timedelta.
    by rewrite !Z.add_0_l in Hsum.
Qed.

Section Rankings.

Context {K : Type}.

Lemma insert_by_count_Permutation (x : K * nat) l :
  insert_by_count x l ≡ₚ x :: l.
Proof.
  induction l as [|y l IH]; simpl; [done|].
  case_decide; [done|]. rewrite IH. apply Permutation_swap.
Qed.

Lemma sorted_by_count_Permutation (items : list (K * nat)) :
  sorted_by_count items ≡ₚ items.
Proof.
  induction items as [|x items IH]; simpl; [done|].
  by rewrite insert_by_count_Permutation, IH.
Qed.

Lemma insert_by_count_sorted (x : K * nat) l :
  StronglySorted (fun a b => b.2 ≤ a.2)%nat l →
  StronglySorted (fun a b => b.2 ≤ a.2)%nat (insert_by_count x l).
Proof.
  induction 1 as [|y l Hl IH Hy]; simpl.
  - repeat constructor.
  - case_decide as Hle.
    + constructor; [by constructor|].
      constructor; [done|]. eapply Forall_impl; [exact Hy|]. simpl. lia.
    + constructor; [done|].
      rewrite insert_by_count_Permutation. constructor; [lia|done].
Qed.

Lemma sorted_by_count_sorted (items : list (K * nat)) :
  StronglySorted (fun a b => b.2 ≤ a.2)%nat (sorted_by_count items).
Proof.
  induction items as [|x items IH]; simpl; [constructor|].
  by apply insert_by_count_sorted.
Qed.

End Rankings.

(** X17: the category distribution lists every category that occurs once,
    with the number of its issues, in the order of falling counts; the
    top reporters are at most ten reporters with the numbers of their
    issues, and no reporter that is left out has more issues than one
    that is listed. *)
Theorem X17_rankings (l : list Issue) :
  (StronglySorted (fun a b => b.2 ≤ a.2)%nat (category_distribution l) ∧
   NoDup (fst <$> category_distribution l) ∧
   (∀ c n, (c, n) ∈ category_distribution l ↔
           (0 < n)%nat ∧ n = length (filter (fun i => category i = c) l)) ∧
   list_sum (snd <$> category_distribution l) = length l) ∧
  ((length (top_reporters l) ≤ 10)%nat ∧
   (∀ who n, (who, n) ∈ top_reporters l →
             (0 < n)%nat ∧ n = length (filter (fun i => reporter i = who) l)) ∧
   (∀ who n who' n', (who, n) ∈ top_reporters l →
        (who', n') ∈ sorted_by_count (count_by reporter l) →
        (who', n') ∉ top_reporters l → (n' ≤ n)%nat)).
Proof.
  destruct (count_by_spec category l) as (Hnd & Hin & Hsum).
  destruct (count_by_spec reporter l) as (Hnd' & Hin' & _).
  unfold category_distribution, top_reporters. split.
  - split; [apply sorted_by_count_sorted|].
    pose proof (sorted_by_count_Permutation (count_by category l)) as Hp.
    split; [by rewrite Hp|]. split; [|by rewrite Hp].
    intros c n. by rewrite Hp.
  - split; [rewrite length_take; lia|].
    pose proof (sorted_by_count_Permutation (count_by reporter l)) as Hp.
    split.
    + intros who n Hin0%(subseteq_take 10). apply Hin'. by rewrite <- Hp.
    + intros who n who' n' Hin1 Hin2 Hnot.
      pose proof (sorted_by_count_sorted (count_by reporter l)) as Hs.
      rewrite <- (take_drop 10 (sorted_by_count (count_by reporter l))) in Hs, Hin2.
      apply elem_of_app in Hin2 as [?|Hin2]; [done|].
      apply (StronglySorted_app_1_elem_of _ _ _ _ _ Hs Hin1 Hin2).
Qed.


(** * Keyword priority in the classifier *)

(** X18: a message of the support side whose lower-cased body has "ok",
    "okay", "looking into" or the Arabic word for "fine" inside is
    classified as a resolution, although all four are acknowledgment
    keywords: each of them has a resolution indicator inside, and the
    resolution indicators are looked up first. *)
Theorem X18_acknowledgment_keywords_shadowed
    (lower : str -> str) (text : str) (has_ticket : bool) (k : str) :
  k ∈ [u "ok"; u "okay"; u "looking into"; [1578; 1605; 1575; 1605]%N] →
  (∃ pre post, lower text = pre ++ k ++ post) →
  k ∈ acknowledgment_arabic ++ acknowledgment_english ∧
  _classify_message_type lower support text has_ticket = resolution.
Proof.
  intros Hk (pre & post & Htext). split.
  - unfold acknowledgment_arabic, acknowledgment_english. set_solver.
  - unfold _classify_message_type.
    assert (Hres : any_in resolution_indicators (lower text) = true);
      [|by rewrite Hres].
    apply any_in_spec. rewrite Htext.
    repeat (apply elem_of_cons in Hk as [->|Hk]); [| | | |by apply elem_of_nil in Hk].
    + exists (u "ok"), pre, post. split; [|done].
      unfold resolution_indicators. set_solver.
    + exists (u "ok"), pre, (u "ay" ++ post). split; [|done].
      unfold resolution_indicators. set_solver.
    + exists (u "ok"), (pre ++ u "lo"), (u "ing into" ++ post). split.
      * unfold resolution_indicators. set_solver.
      * by rewrite <- !app_assoc.
    + exists [1578; 1605; 1575; 1605]%N, pre, post. split; [|done].
      unfold resolution_indicators. set_solver.
Qed.

(** * The further properties on the small transcript *)

Lemma X6_witness :
  ∃ l, group_into_issues ascii_lower
         [port5_report; checking_reply; port7_report; done_reply; welcome_reply]
       = Some l ∧ Forall times_ok l.
Proof.
  apply (X6_time_order ascii_lower).
  repeat (constructor; [repeat constructor; vm_compute; discriminate|]).
  constructor.
Defined.

Lemma X18_witness :
  u "ok" ∈ acknowledgment_arabic ++ acknowledgment_english ∧
  _classify_message_type ascii_lower support (u "OK checking") false = resolution.
Proof.
  apply (X18_acknowledgment_keywords_shadowed ascii_lower (u "OK checking") false (u "ok")).
  - left.
  - exists [], (u " checking"). reflexivity.
Defined.
